(** * null.Int8: a nullable 8-bit signed integer

    Shallow embedding of [int8.go] (package [null]) together with the parts of
    the Go standard library its methods call: [strconv.ParseInt],
    [strconv.FormatInt], [bytes.Equal], [json.Unmarshal] into an empty
    interface and into an [int64], [reflect.Type.Name] and [fmt.Errorf].

    Conventions.
    - A Go [[]byte] or [string] is a [list byte]; a nil slice and an empty
      slice are both the empty list, except in [UnmarshalText], whose source
      tests [text == nil] and therefore takes an [option (list byte)].
    - Go integers are [Z]; every narrowing conversion and every unsigned
      addition that may wrap is written out ([int8], [int64], [uint64]).
    - A method with a pointer receiver takes the receiver and returns the
      updated receiver together with the returned [error]; [None] is Go's
      [nil] error. *)

From Stdlib Require Import ZArith List Lia Bool.
From Stdlib Require Import Strings.String Strings.Ascii Strings.Byte.
From Stdlib Require Import DecimalString.
Import ListNotations.
Local Open Scope Z_scope.

(** ** Bytes *)

Definition byte_val (c : byte) : Z := Z.of_N (Byte.to_N c).

Definition byte_of (z : Z) : byte :=
  match Byte.of_N (Z.to_N z) with
  | Some b => b
  | None => "000"%byte
  end.

Definition bytes (s : string) : list byte := list_byte_of_string s.

Definition is_byte (c : byte) (k : string) : bool :=
  match bytes k with
  | [b] => Byte.eqb c b
  | _ => false
  end.

(** The double quote, byte 34. *)
Definition quote : byte := x22.

Definition is_quote (c : byte) : bool := Byte.eqb c quote.

(** ['0' <= c && c <= '9'] *)
Definition is_digit (c : byte) : bool :=
  (48 <=? byte_val c) && (byte_val c <=? 57).

(** ['1' <= c && c <= '9'] *)
Definition is_digit19 (c : byte) : bool :=
  (49 <=? byte_val c) && (byte_val c <=? 57).

(** [bytes.Equal] *)
Fixpoint bytes_Equal (a b : list byte) : bool :=
  match a, b with
  | [], [] => true
  | x :: a', y :: b' => Byte.eqb x y && bytes_Equal a' b'
  | _, _ => false
  end.

(** ** Fixed-width integers *)

Definition wrap_signed (bits : Z) (z : Z) : Z :=
  (z + 2 ^ (bits - 1)) mod 2 ^ bits - 2 ^ (bits - 1).

(** The conversions [int8(x)], [int64(x)] and [uint64(x)]. *)
Definition int8 (z : Z) : Z := wrap_signed 8 z.
Definition int64 (z : Z) : Z := wrap_signed 64 z.
Definition uint64 (z : Z) : Z := z mod 2 ^ 64.

Definition MaxInt8 : Z := 127.
Definition MinInt8 : Z := -128.
Definition MaxInt64 : Z := 2 ^ 63 - 1.
Definition MinInt64 : Z := - 2 ^ 63.
Definition maxUint64 : Z := 2 ^ 64 - 1.

(** ** Errors *)

(** [strconv.ErrSyntax] and [strconv.ErrRange]. *)
Inductive num_err : Type := ErrSyntax | ErrRange.

(** The error values the methods of [Int8] can return.  The errors of the
    standard library are kept by their dynamic type (and, for
    [strconv.NumError], their [Func] and [Err] fields); the text they quote
    and their byte offsets are left out.  An error made by [fmt.Errorf]
    carries its message. *)
Inductive error : Type :=
| NumError (fn : string) (e : num_err)
| JSONSyntaxError
| JSONUnmarshalTypeError
| Errorf (msg : list byte)
| ConvertError (msg : list byte).

Definition is_nil (e : option error) : bool :=
  match e with None => true | Some _ => false end.

(** ** Package strconv *)

Module strconv.

(** The digit loop of [ParseUint(s, 10, bitSize)]: [n] is the value read so
    far.  A byte that is no decimal digit is a syntax error; the two range
    tests are the source's, the second one on the wrapped sum. *)
Fixpoint ParseUint_loop (maxVal : Z) (s : list byte) (n : Z)
  : Z * option num_err :=
  match s with
  | [] => (n, None)
  | c :: s' =>
    if is_digit c then
      let d := byte_val c - 48 in
      let cutoff := maxUint64 / 10 + 1 in
      if cutoff <=? n then (maxVal, Some ErrRange)
      else
        let n := n * 10 in
        let n1 := uint64 (n + d) in
        if (n1 <? n) || (maxVal <? n1) then (maxVal, Some ErrRange)
        else ParseUint_loop maxVal s' n1
    else (0, Some ErrSyntax)
  end.

(** [ParseUint(s, 10, bitSize)] for [0 < bitSize <= 64]. *)
Definition ParseUint (s : list byte) (bitSize : Z) : Z * option num_err :=
  match s with
  | [] => (0, Some ErrSyntax)
  | _ => ParseUint_loop (uint64 (uint64 (2 ^ bitSize) - 1)) s 0
  end.

(** [ParseInt(s, 10, bitSize)] for [0 < bitSize <= 64]. *)
Definition ParseInt (s : list byte) (bitSize : Z) : Z * option error :=
  match s with
  | [] => (0, Some (NumError "ParseInt" ErrSyntax))
  | c :: s' =>
    let '(neg, s1) :=
      if is_byte c "+" then (false, s')
      else if is_byte c "-" then (true, s')
      else (false, s) in
    match ParseUint s1 bitSize with
    | (_, Some ErrSyntax) => (0, Some (NumError "ParseInt" ErrSyntax))
    | (un, _) =>
      let cutoff := 2 ^ (bitSize - 1) in
      if negb neg && (cutoff <=? un) then
        (int64 (cutoff - 1), Some (NumError "ParseInt" ErrRange))
      else if neg && (cutoff <? un) then
        (int64 (- int64 cutoff), Some (NumError "ParseInt" ErrRange))
      else
        let n := int64 un in
        ((if neg then int64 (- n) else n), None)
    end
  end.

(** The digits of [u], most significant first, in front of [acc]; this is
    the loop of [formatBits] for base 10, one digit at a time.  A [uint64]
    has at most 20 decimal digits. *)
Fixpoint formatBits_loop (fuel : nat) (u : Z) (acc : list byte) : list byte :=
  match fuel with
  | O => acc
  | S fuel' =>
    let acc' := byte_of (48 + u mod 10) :: acc in
    if u <? 10 then acc' else formatBits_loop fuel' (u / 10) acc'
  end.

(** [FormatInt(i, 10)] for an [int64] [i]. *)
Definition FormatInt (i : Z) : list byte :=
  if i <? 0
  then bytes "-" ++ formatBits_loop 20 (uint64 (- uint64 i)) []
  else formatBits_loop 20 (uint64 i) [].

End strconv.

(** ** Package encoding/json: the scanner

    [json.Unmarshal] first runs [checkValid], a state machine that reads the
    input one byte at a time.  [step_state] names the scanner's step
    functions, [parseState] is its stack of open objects and arrays (innermost
    first).  A step that reports an error, at once or on the next call, is
    [None]. *)

Module json.

Inductive step_state : Type :=
| stateBeginValueOrEmpty | stateBeginValue
| stateBeginStringOrEmpty | stateBeginString
| stateEndValue | stateEndTop
| stateInString | stateInStringEsc
| stateInStringEscU | stateInStringEscU1
| stateInStringEscU12 | stateInStringEscU123
| stateNeg | state1 | state0
| stateDot | stateDot0 | stateE | stateESign | stateE0
| stateT | stateTr | stateTru
| stateF | stateFa | stateFal | stateFals
| stateN | stateNu | stateNul.

Inductive parse_state : Type :=
| parseObjectKey | parseObjectValue | parseArrayValue.

Record scanner : Type := mkScanner {
  step : step_state;
  parseState : list parse_state
}.

Definition maxNestingDepth : Z := 10000.

Definition isSpace (c : byte) : bool :=
  (byte_val c <=? 32) &&
  ((byte_val c =? 32) || (byte_val c =? 9) ||
   (byte_val c =? 13) || (byte_val c =? 10)).

Definition isHex (c : byte) : bool :=
  is_digit c ||
  ((97 <=? byte_val c) && (byte_val c <=? 102)) ||
  ((65 <=? byte_val c) && (byte_val c <=? 70)).

Definition goto (st : step_state) (s : scanner) : option scanner :=
  Some (mkScanner st (parseState s)).

Definition pushParseState (s : scanner) (newParseState : parse_state)
    (successState : step_state) : option scanner :=
  let ps := newParseState :: parseState s in
  if Z.of_nat (List.length ps) <=? maxNestingDepth
  then Some (mkScanner successState ps)
  else None.

Definition popParseState (s : scanner) : scanner :=
  match tl (parseState s) with
  | [] => mkScanner stateEndTop []
  | ps => mkScanner stateEndValue ps
  end.

Definition do_stateEndTop (s : scanner) (c : byte) : option scanner :=
  if isSpace c then Some s else None.

Definition do_stateEndValue (s : scanner) (c : byte) : option scanner :=
  match parseState s with
  | [] => do_stateEndTop (mkScanner stateEndTop []) c
  | ps :: rest =>
    if isSpace c then goto stateEndValue s
    else
      match ps with
      | parseObjectKey =>
        if is_byte c ":"
        then Some (mkScanner stateBeginValue (parseObjectValue :: rest))
        else None
      | parseObjectValue =>
        if is_byte c ","
        then Some (mkScanner stateBeginString (parseObjectKey :: rest))
        else if is_byte c "}" then Some (popParseState s)
        else None
      | parseArrayValue =>
        if is_byte c "," then goto stateBeginValue s
        else if is_byte c "]" then Some (popParseState s)
        else None
      end
  end.

Definition do_stateBeginValue (s : scanner) (c : byte) : option scanner :=
  if isSpace c then Some s
  else if is_byte c "{" then pushParseState s parseObjectKey stateBeginStringOrEmpty
  else if is_byte c "[" then pushParseState s parseArrayValue stateBeginValueOrEmpty
  else if is_quote c then goto stateInString s
  else if is_byte c "-" then goto stateNeg s
  else if is_byte c "0" then goto state0 s
  else if is_byte c "t" then goto stateT s
  else if is_byte c "f" then goto stateF s
  else if is_byte c "n" then goto stateN s
  else if is_digit19 c then goto state1 s
  else None.

Definition do_stateBeginValueOrEmpty (s : scanner) (c : byte) : option scanner :=
  if isSpace c then Some s
  else if is_byte c "]" then do_stateEndValue s c
  else do_stateBeginValue s c.

Definition do_stateBeginString (s : scanner) (c : byte) : option scanner :=
  if isSpace c then Some s
  else if is_quote c then goto stateInString s
  else None.

Definition do_stateBeginStringOrEmpty (s : scanner) (c : byte) : option scanner :=
  if isSpace c then Some s
  else if is_byte c "}"
  then do_stateEndValue (mkScanner (step s) (parseObjectValue :: tl (parseState s))) c
  else do_stateBeginString s c.

Definition do_stateInString (s : scanner) (c : byte) : option scanner :=
  if is_quote c then goto stateEndValue s
  else if is_byte c "\" then goto stateInStringEsc s
  else if byte_val c <? 32 then None
  else Some s.

Definition do_stateInStringEsc (s : scanner) (c : byte) : option scanner :=
  if is_byte c "b" || is_byte c "f" || is_byte c "n" || is_byte c "r" ||
     is_byte c "t" || is_byte c "\" || is_byte c "/" || is_quote c
  then goto stateInString s
  else if is_byte c "u" then goto stateInStringEscU s
  else None.

Definition expect_hex (next : step_state) (s : scanner) (c : byte) : option scanner :=
  if isHex c then goto next s else None.

Definition expect_byte (k : string) (next : step_state) (s : scanner) (c : byte)
  : option scanner :=
  if is_byte c k then goto next s else None.

Definition do_state0 (s : scanner) (c : byte) : option scanner :=
  if is_byte c "." then goto stateDot s
  else if is_byte c "e" || is_byte c "E" then goto stateE s
  else do_stateEndValue s c.

Definition do_state1 (s : scanner) (c : byte) : option scanner :=
  if is_digit c then goto state1 s else do_state0 s c.

Definition do_stateNeg (s : scanner) (c : byte) : option scanner :=
  if is_byte c "0" then goto state0 s
  else if is_digit19 c then goto state1 s
  else None.

Definition do_stateDot (s : scanner) (c : byte) : option scanner :=
  if is_digit c then goto stateDot0 s else None.

Definition do_stateDot0 (s : scanner) (c : byte) : option scanner :=
  if is_digit c then Some s
  else if is_byte c "e" || is_byte c "E" then goto stateE s
  else do_stateEndValue s c.

Definition do_stateESign (s : scanner) (c : byte) : option scanner :=
  if is_digit c then goto stateE0 s else None.

Definition do_stateE (s : scanner) (c : byte) : option scanner :=
  if is_byte c "+" || is_byte c "-" then goto stateESign s
  else do_stateESign s c.

Definition do_stateE0 (s : scanner) (c : byte) : option scanner :=
  if is_digit c then Some s else do_stateEndValue s c.

(** [s.step(s, c)] *)
Definition scan_step (s : scanner) (c : byte) : option scanner :=
  match step s with
  | stateBeginValueOrEmpty => do_stateBeginValueOrEmpty s c
  | stateBeginValue => do_stateBeginValue s c
  | stateBeginStringOrEmpty => do_stateBeginStringOrEmpty s c
  | stateBeginString => do_stateBeginString s c
  | stateEndValue => do_stateEndValue s c
  | stateEndTop => do_stateEndTop s c
  | stateInString => do_stateInString s c
  | stateInStringEsc => do_stateInStringEsc s c
  | stateInStringEscU => expect_hex stateInStringEscU1 s c
  | stateInStringEscU1 => expect_hex stateInStringEscU12 s c
  | stateInStringEscU12 => expect_hex stateInStringEscU123 s c
  | stateInStringEscU123 => expect_hex stateInString s c
  | stateNeg => do_stateNeg s c
  | state1 => do_state1 s c
  | state0 => do_state0 s c
  | stateDot => do_stateDot s c
  | stateDot0 => do_stateDot0 s c
  | stateE => do_stateE s c
  | stateESign => do_stateESign s c
  | stateE0 => do_stateE0 s c
  | stateT => expect_byte "r" stateTr s c
  | stateTr => expect_byte "u" stateTru s c
  | stateTru => expect_byte "e" stateEndValue s c
  | stateF => expect_byte "a" stateFa s c
  | stateFa => expect_byte "l" stateFal s c
  | stateFal => expect_byte "s" stateFals s c
  | stateFals => expect_byte "e" stateEndValue s c
  | stateN => expect_byte "u" stateNu s c
  | stateNu => expect_byte "l" stateNul s c
  | stateNul => expect_byte "l" stateEndValue s c
  end.

Definition endTop (s : scanner) : bool :=
  match step s with stateEndTop => true | _ => false end.

(** The scanner after the bytes of [data], from state [s]. *)
Fixpoint scan_bytes (s : scanner) (data : list byte) : option scanner :=
  match data with
  | [] => Some s
  | c :: data' =>
    match scan_step s c with
    | Some s' => scan_bytes s' data'
    | None => None
    end
  end.

(** [scan.reset()] *)
Definition reset : scanner := mkScanner stateBeginValue [].

(** [scan.eof()]: at the end of the input the top-level value is complete,
    or becomes complete when a space is fed to the scanner. *)
Definition eof (s : scanner) : bool :=
  if endTop s then true
  else match scan_step s " "%byte with
       | Some s' => endTop s'
       | None => false
       end.

(** [checkValid(data, scan) == nil] *)
Definition checkValid (data : list byte) : bool :=
  match scan_bytes reset data with
  | Some s => eof s
  | None => false
  end.

(** ** Package encoding/json: literals

    After [checkValid] the decoder walks the input again and stores every
    literal it meets.  What follows is what that walk computes for the two
    targets [int8.go] decodes into. *)

(** The scanner is inside a number literal. *)
Definition in_number (st : step_state) : bool :=
  match st with
  | stateNeg | state1 | state0 | stateDot | stateDot0
  | stateE | stateESign | stateE0 => true
  | _ => false
  end.

(** The number literals of [data], in order of appearance; [cur] holds the
    bytes of the literal being read, last byte first. *)
Fixpoint literals_from (s : scanner) (cur : list byte) (data : list byte)
  : list (list byte) :=
  match data with
  | [] => if in_number (step s) then [rev cur] else []
  | c :: data' =>
    match scan_step s c with
    | None => []
    | Some s' =>
      if in_number (step s') then literals_from s' (c :: cur) data'
      else if in_number (step s) then rev cur :: literals_from s' [] data'
      else literals_from s' [] data'
    end
  end.

Definition number_literals (data : list byte) : list (list byte) :=
  literals_from reset [] data.

(** [readFloat] of package strconv on the digits of a JSON number: the
    significant digits as an integer [m], their count [nd] and the position
    [dp] of the decimal point, so that the number is [m * 10^(dp - nd)].
    Zeros in front of the first significant digit move the point only. *)
Fixpoint readFloat_digits (s : list byte) (sawdot : bool) (m nd dp : Z)
  : Z * Z * Z * list byte :=
  match s with
  | [] => (m, nd, (if sawdot then dp else nd), [])
  | c :: s' =>
    if is_byte c "." then
      if sawdot then (m, nd, dp, s)
      else readFloat_digits s' true m nd nd
    else if is_digit c then
      if is_byte c "0" && (nd =? 0)
      then readFloat_digits s' sawdot m nd (dp - 1)
      else readFloat_digits s' sawdot (m * 10 + (byte_val c - 48)) (nd + 1) dp
    else (m, nd, (if sawdot then dp else nd), s)
  end.

(** The exponent digits; the exponent stops growing once it has reached
    10000. *)
Fixpoint readFloat_exp (s : list byte) (e : Z) : Z :=
  match s with
  | c :: s' =>
    if is_digit c
    then readFloat_exp s' (if e <? 10000 then e * 10 + (byte_val c - 48) else e)
    else e
  | [] => e
  end.

Definition readFloat (lit : list byte) : Z * Z * Z :=
  let s := match lit with
           | c :: s' => if is_byte c "-" then s' else lit
           | [] => lit
           end in
  let '(m, nd, dp, rest) := readFloat_digits s false 0 0 0 in
  match rest with
  | c :: r1 =>
    if is_byte c "e" || is_byte c "E" then
      match r1 with
      | sg :: r2 =>
        if is_byte sg "+" then (m, nd, dp + readFloat_exp r2 0)
        else if is_byte sg "-" then (m, nd, dp - readFloat_exp r2 0)
        else (m, nd, dp + readFloat_exp r1 0)
      | [] => (m, nd, dp)
      end
    else (m, nd, dp)
  | [] => (m, nd, dp)
  end.

(** The least magnitude that [strconv.ParseFloat(s, 64)] rounds to an
    infinity: half an ulp above the largest finite [float64]. *)
Definition float64_limit : Z := 2 ^ 1024 - 2 ^ 970.

(** [strconv.ParseFloat(lit, 64)] fails with [ErrRange], which makes
    [convertNumber] fail. *)
Definition float64_overflows (lit : list byte) : bool :=
  let '(m, nd, dp) := readFloat lit in
  if m =? 0 then false
  else if 310 <? dp then true
  else if dp <? -330 then false
  else if nd <=? dp then float64_limit <=? m * 10 ^ (dp - nd)
  else float64_limit * 10 ^ (nd - dp) <=? m.

(** [utf8.EncodeRune] *)
Definition utf8_EncodeRune (r : Z) : list byte :=
  let cont (x : Z) := byte_of (Z.lor 128 (Z.land x 63)) in
  let r3 (r : Z) :=
    [byte_of (Z.lor 224 (Z.shiftr r 12)); cont (Z.shiftr r 6); cont r] in
  if (0 <=? r) && (r <=? 127) then [byte_of r]
  else if (0 <=? r) && (r <=? 2047)
  then [byte_of (Z.lor 192 (Z.shiftr r 6)); cont r]
  else if (r <? 0) || (1114111 <? r) || ((55296 <=? r) && (r <=? 57343))
  then r3 65533
  else if r <=? 65535 then r3 r
  else [byte_of (Z.lor 240 (Z.shiftr r 18)); cont (Z.shiftr r 12);
        cont (Z.shiftr r 6); cont r].

(** The size that [utf8.DecodeRune] returns at the head of [p], a byte of
    128 or more, when [p] starts with a well-formed encoding; [None] when it
    returns [(RuneError, 1)]. *)
Definition utf8_DecodeRune_size (p : list byte) : option nat :=
  let between (lo hi : Z) (b : byte) := (lo <=? byte_val b) && (byte_val b <=? hi) in
  let tail (b : byte) := between 128 191 b in
  match p with
  | [] => None
  | p0 :: p' =>
    let v := byte_val p0 in
    let '(sz, lo, hi) :=
      if (194 <=? v) && (v <=? 223) then (2%nat, 128, 191)
      else if v =? 224 then (3%nat, 160, 191)
      else if v =? 237 then (3%nat, 128, 159)
      else if (225 <=? v) && (v <=? 239) then (3%nat, 128, 191)
      else if v =? 240 then (4%nat, 144, 191)
      else if v =? 244 then (4%nat, 128, 143)
      else if (241 <=? v) && (v <=? 243) then (4%nat, 128, 191)
      else (0%nat, 0, 0) in
    match sz, p' with
    | 2%nat, b1 :: _ => if between lo hi b1 then Some 2%nat else None
    | 3%nat, b1 :: b2 :: _ =>
      if between lo hi b1 && tail b2 then Some 3%nat else None
    | 4%nat, b1 :: b2 :: b3 :: _ =>
      if between lo hi b1 && tail b2 && tail b3 then Some 4%nat else None
    | _, _ => None
    end
  end.

Definition hexval (c : byte) : Z :=
  let v := byte_val c in
  if is_digit c then v - 48
  else if (97 <=? v) && (v <=? 102) then v - 97 + 10
  else v - 65 + 10.

(** [getu4]: the rune of a [\uXXXX] escape at the head of [s], or [-1]. *)
Definition getu4 (s : list byte) : Z :=
  match s with
  | b :: u :: h1 :: h2 :: h3 :: h4 :: _ =>
    if is_byte b "\" && is_byte u "u" &&
       isHex h1 && isHex h2 && isHex h3 && isHex h4
    then ((hexval h1 * 16 + hexval h2) * 16 + hexval h3) * 16 + hexval h4
    else -1
  | _ => -1
  end.

Definition utf16_IsSurrogate (r : Z) : bool := (55296 <=? r) && (r <? 57344).

Definition ReplacementChar : Z := 65533.

(** [utf16.DecodeRune] *)
Definition utf16_DecodeRune (r1 r2 : Z) : Z :=
  if (55296 <=? r1) && (r1 <? 56320) && (56320 <=? r2) && (r2 <? 57344)
  then Z.lor (Z.shiftl (r1 - 55296) 10) (r2 - 56320) + 65536
  else ReplacementChar.

Definition prepend (p : list byte) (r : option (list byte)) : option (list byte) :=
  match r with Some t => Some (p ++ t) | None => None end.

(** The loop of [unquoteBytes] over the bytes between the quotes.  [copy]
    counts the bytes of a well-formed multi-byte rune still to be copied. *)
Fixpoint unquote_loop (s : list byte) (copy : nat) : option (list byte) :=
  match s with
  | [] => Some []
  | c :: s1 =>
    match copy with
    | S k => prepend [c] (unquote_loop s1 k)
    | O =>
      if is_byte c "\" then
        match s1 with
        | [] => None
        | e :: s2 =>
          if is_quote e || is_byte e "\" || is_byte e "/" || is_byte e "'"
          then prepend [e] (unquote_loop s2 O)
          else if is_byte e "b" then prepend [byte_of 8] (unquote_loop s2 O)
          else if is_byte e "f" then prepend [byte_of 12] (unquote_loop s2 O)
          else if is_byte e "n" then prepend [byte_of 10] (unquote_loop s2 O)
          else if is_byte e "r" then prepend [byte_of 13] (unquote_loop s2 O)
          else if is_byte e "t" then prepend [byte_of 9] (unquote_loop s2 O)
          else if is_byte e "u" then
            let rr := getu4 s in
            if rr <? 0 then None
            else
              match s2 with
              | _ :: _ :: _ :: _ :: s6 =>
                if utf16_IsSurrogate rr then
                  let dec := utf16_DecodeRune rr (getu4 s6) in
                  if negb (dec =? ReplacementChar) then
                    match s6 with
                    | _ :: _ :: _ :: _ :: _ :: _ :: s12 =>
                      prepend (utf8_EncodeRune dec) (unquote_loop s12 O)
                    | _ => None
                    end
                  else prepend (utf8_EncodeRune ReplacementChar) (unquote_loop s6 O)
                else prepend (utf8_EncodeRune rr) (unquote_loop s6 O)
              | _ => None
              end
          else None
        end
      else if is_quote c || (byte_val c <? 32) then None
      else if byte_val c <? 128 then prepend [c] (unquote_loop s1 O)
      else
        match utf8_DecodeRune_size s with
        | Some sz => prepend [c] (unquote_loop s1 (Nat.pred sz))
        | None => prepend (utf8_EncodeRune ReplacementChar) (unquote_loop s1 O)
        end
    end
  end.

(** [unquote]: the string a quoted literal stands for. *)
Definition unquote (item : list byte) : option (list byte) :=
  match item with
  | q :: s =>
    match rev s with
    | q' :: inner =>
      if is_quote q && is_quote q' then unquote_loop (rev inner) O
      else None
    | [] => None
    end
  | [] => None
  end.

(** ** Package encoding/json: Unmarshal *)

(** The dynamic value that [json.Unmarshal] stores in an empty interface.
    [int8.go] switches on its type and reads the value of a string only, so
    a number is kept as its literal and the elements of slices and maps are
    not kept. *)
Inductive value : Type :=
| Nil
| Bool (b : bool)
| Float64 (lit : list byte)
| String (s : list byte)
| Slice
| Map.

Inductive result (A : Type) : Type :=
| Ok (a : A)
| Err (e : error).
Arguments Ok {A} a.
Arguments Err {A} e.

Fixpoint skip_space (s : list byte) : list byte :=
  match s with
  | c :: s' => if isSpace c then skip_space s' else s
  | [] => []
  end.

(** The bytes of the top-level value of a valid input. *)
Definition top_level (data : list byte) : list byte :=
  rev (skip_space (rev (skip_space data))).

(** [json.Unmarshal(data, &v)] for [var v interface{}].  Every number of
    the input goes through [convertNumber]; the first failure is the error
    returned. *)
Definition Unmarshal_interface (data : list byte) : result value :=
  if negb (checkValid data) then Err JSONSyntaxError
  else if existsb float64_overflows (number_literals data)
  then Err JSONUnmarshalTypeError
  else
    let item := top_level data in
    match item with
    | [] => Err JSONSyntaxError
    | c :: _ =>
      if is_byte c "{" then Ok Map
      else if is_byte c "[" then Ok Slice
      else if is_byte c "n" then Ok Nil
      else if is_byte c "t" then Ok (Bool true)
      else if is_byte c "f" then Ok (Bool false)
      else if is_quote c then
        match unquote item with
        | Some s => Ok (String s)
        | None => Err JSONSyntaxError
        end
      else Ok (Float64 item)
    end.

(** [json.Unmarshal(data, &r)] for [var r int64]: the new value of [r] and
    the error.  A number must be accepted by [strconv.ParseInt]; [null]
    leaves [r] as it is; every other value is a type error. *)
Definition Unmarshal_int64 (data : list byte) (r : Z) : Z * option error :=
  if negb (checkValid data) then (r, Some JSONSyntaxError)
  else
    let item := top_level data in
    match item with
    | [] => (r, Some JSONSyntaxError)
    | c :: _ =>
      if is_byte c "n" then (r, None)
      else if is_byte c "{" || is_byte c "[" || is_byte c "t" ||
              is_byte c "f" || is_quote c
      then (r, Some JSONUnmarshalTypeError)
      else
        match strconv.ParseInt item 64 with
        | (n, None) => (n, None)
        | (_, Some _) => (r, Some JSONUnmarshalTypeError)
        end
    end.

End json.

(** ** Package reflect *)

(** [reflect.TypeOf(v).Name()] for a value decoded by [json.Unmarshal]: the
    name of a defined type, and the empty string for the composite types
    [[]interface{}] and [map[string]interface{}].  The source calls it on a
    non-nil [v] only. *)
Definition reflect_TypeOf_Name (v : json.value) : list byte :=
  match v with
  | json.Nil => []
  | json.Bool _ => bytes "bool"
  | json.Float64 _ => bytes "float64"
  | json.String _ => bytes "string"
  | json.Slice => []
  | json.Map => []
  end.

(** ** Package null: the type Int8 *)

(** [type Int8 struct { Int8 int8; Valid bool }]; the field [Int8] is
    [Int8v] here, because a record and its field cannot share a name. *)
Record Int8 : Type := mkInt8 {
  Int8v : Z;
  Valid : bool
}.

(** Modelled from the spec: the byte representation of the literal [null]
    token, [NullBytes], which a sibling file of the package declares. *)
Definition NullBytes : list byte := bytes "null".

Definition NewInt8 (i : Z) (valid : bool) : Int8 :=
  {| Int8v := i; Valid := valid |}.

Definition Int8From (i : Z) : Int8 := NewInt8 i true.

(** A [*int8] is [None] when nil. *)
Definition Int8FromPtr (i : option Z) : Int8 :=
  match i with
  | None => NewInt8 0 false
  | Some n => NewInt8 n true
  end.

(** [fmt.Errorf("json: cannot unmarshal %v into Go value of type null.Int8", name)] *)
Definition errUnsupported (name : list byte) : error :=
  Errorf (bytes "json: cannot unmarshal " ++ name ++
          bytes " into Go value of type null.Int8").

(** [fmt.Errorf("json: %d overflows max int8 value", r)] *)
Definition errOverflow (r : Z) : error :=
  Errorf (bytes "json: " ++ strconv.FormatInt r ++
          bytes " overflows max int8 value").

(** The end of [UnmarshalJSON], from the overflow test on, with the [r] and
    [err] that the switch has left. *)
Definition UnmarshalJSON_store (r : Z) (err : option error) (i : Int8)
  : Int8 * option error :=
  if MaxInt8 <? r then (i, Some (errOverflow r))
  else
    let v := int8 r in
    ({| Int8v := v; Valid := is_nil err && negb (v =? 0) |}, err).

Definition UnmarshalJSON (data : list byte) (i : Int8) : Int8 * option error :=
  if bytes_Equal data NullBytes then
    ({| Int8v := 0; Valid := false |}, None)
  else
    match json.Unmarshal_interface data with
    | json.Err err => (i, Some err)
    | json.Ok v =>
      match v with
      | json.Float64 _ =>
        let '(r, err) := json.Unmarshal_int64 data 0 in
        UnmarshalJSON_store r err i
      | json.String str =>
        if Z.of_nat (List.length str) =? 0 then
          ({| Int8v := Int8v i; Valid := false |}, None)
        else
          let '(r, err) := strconv.ParseInt str 8 in
          UnmarshalJSON_store r err i
      | json.Nil => ({| Int8v := Int8v i; Valid := false |}, None)
      | _ => UnmarshalJSON_store 0 (Some (errUnsupported (reflect_TypeOf_Name v))) i
      end
    end.

Definition UnmarshalText (text : option (list byte)) (i : Int8)
  : Int8 * option error :=
  match text with
  | None => ({| Int8v := Int8v i; Valid := false |}, None)
  | Some t =>
    if Z.of_nat (List.length t) =? 0 then
      ({| Int8v := Int8v i; Valid := false |}, None)
    else
      let '(res, err) := strconv.ParseInt t 8 in
      if is_nil err
      then ({| Int8v := int8 res; Valid := true |}, err)
      else ({| Int8v := Int8v i; Valid := false |}, err)
  end.

Definition MarshalJSON (i : Int8) : list byte * option error :=
  if negb (Valid i) then (NullBytes, None)
  else (strconv.FormatInt (int64 (Int8v i)), None).

Definition MarshalText (i : Int8) : list byte * option error :=
  if negb (Valid i) then ([], None)
  else (strconv.FormatInt (int64 (Int8v i)), None).

Definition SetValid (n : Z) (i : Int8) : Int8 :=
  {| Int8v := n; Valid := true |}.

Definition Ptr (i : Int8) : option Z :=
  if negb (Valid i) then None else Some (Int8v i).

Definition IsZero (i : Int8) : bool := negb (Valid i).

(** A [driver.Value] made by [Value]: nil or an [int64]. *)
Inductive driver_Value : Type :=
| driver_nil
| driver_int64 (n : Z).

Definition Value (i : Int8) : driver_Value * option error :=
  if negb (Valid i) then (driver_nil, None)
  else (driver_int64 (int64 (Int8v i)), None).

(** [nextInt] is the number that the one call of the generator returns; Go's
    [%] truncates, as [Z.rem] does. *)
Definition Randomize (nextInt : Z) (fieldType : list byte) (shouldBeNull : bool)
    (i : Int8) : Int8 :=
  if shouldBeNull then {| Int8v := 0; Valid := false |}
  else {| Int8v := int8 (Z.rem nextInt MaxInt8); Valid := true |}.

(** [Scan] hands a non-nil driver value to [convert.ConvertAssign], a
    function of package convert, outside [int8.go]: it is a parameter here.
    [src] is the type of non-nil driver values.  The coercion is given a
    pointer to the field [Int8] only: it gets the current content of the
    field, returns the new content and its error, and cannot see or change
    [Valid], which [Scan] has set before the call. *)
Section Scan.

Variable src : Type.
Variable ConvertAssign : Z -> src -> Z * option error.

Definition Scan (value : option src) (i : Int8) : Int8 * option error :=
  match value with
  | None => ({| Int8v := 0; Valid := false |}, None)
  | Some x =>
    let '(n, err) := ConvertAssign (Int8v i) x in
    ({| Int8v := n; Valid := true |}, err)
  end.

End Scan.
Arguments Scan {src} ConvertAssign value i.

(** ** Notions used to state the properties *)

(** The number that the decimal digits [ds] stand for, read after the
    number [n]. *)
Definition dec_value (ds : list byte) (n : Z) : Z :=
  fold_left (fun n c => n * 10 + (byte_val c - 48)) ds n.

(** The decimal text of a positive number: a digit that is not 0, followed
    by digits. *)
Definition pos_decimal (ds : list byte) : Prop :=
  match ds with
  | c :: rest => is_digit19 c = true /\ Forall (fun c => is_digit c = true) rest
  | [] => False
  end.

(** The JSON text of the empty string: two double quotes. *)
Definition empty_JSON_string : list byte := [quote; quote].

(** The values of an [int8]. *)
Definition in_int8 (v : Z) : Prop := MinInt8 <= v <= MaxInt8.

Definition int8_values : list Z :=
  map (fun k => Z.of_nat k - 128) (seq 0 256).

(** The decimal ASCII representation of an integer, as the standard library
    of Rocq prints it: the reference that [strconv.FormatInt] is compared
    with. *)
Definition decimal_ascii (v : Z) : list byte :=
  bytes (NilZero.string_of_int (Z.to_int v)).

(** The invariant of the data model: an invalid [Int8] holds 0. *)
Definition zero_when_invalid (i : Int8) : Prop :=
  Valid i = false -> Int8v i = 0.

(** [candidate data r err]: [UnmarshalJSON data] goes through the number or
    the string branch of its switch and reaches the overflow test with the
    candidate integer [r] and the error [err]. *)
Inductive candidate (data : list byte) (r : Z) (err : option error) : Prop :=
| candidate_number (lit : list byte) :
    bytes_Equal data NullBytes = false ->
    json.Unmarshal_interface data = json.Ok (json.Float64 lit) ->
    json.Unmarshal_int64 data 0 = (r, err) ->
    candidate data r err
| candidate_string (str : list byte) :
    bytes_Equal data NullBytes = false ->
    json.Unmarshal_interface data = json.Ok (json.String str) ->
    str <> [] ->
    strconv.ParseInt str 8 = (r, err) ->
    candidate data r err.

(** [data] is a JSON number that [json.Unmarshal] stores in an [int64] as
    [r]; a boolean test, for inputs that can be run. *)
Definition decodes_to_int64 (data : list byte) (r : Z) : bool :=
  negb (bytes_Equal data NullBytes) &&
  match json.Unmarshal_interface data with
  | json.Ok (json.Float64 _) => true
  | _ => false
  end &&
  match json.Unmarshal_int64 data 0 with
  | (n, None) => n =? r
  | (_, Some _) => false
  end.

(** [UnmarshalJSON data] takes a branch that sets [Valid] to false and leaves
    the field [Int8] as it was: the empty JSON string, or a [null] that is
    not byte-for-byte [NullBytes]. *)
Definition leaves_value (data : list byte) : bool :=
  negb (bytes_Equal data NullBytes) &&
  match json.Unmarshal_interface data with
  | json.Ok (json.String []) => true
  | json.Ok json.Nil => true
  | _ => false
  end.

(** The states built by the constructors and the operations that either
    make the state valid or store 0 with [Valid = false]: [NewInt8] is used
    with a valid flag or with 0 only, and the decoders are used where they
    succeed and do not take a branch that leaves the value as it was. *)
Section Reachable.

Variable src : Type.
Variable ConvertAssign : Z -> src -> Z * option error.

Inductive reachable : Int8 -> Prop :=
| reach_NewInt8 v valid :
    (valid = false -> v = 0) -> reachable (NewInt8 v valid)
| reach_Int8From v : reachable (Int8From v)
| reach_Int8FromPtr p : reachable (Int8FromPtr p)
| reach_UnmarshalJSON data i i' :
    reachable i -> leaves_value data = false ->
    UnmarshalJSON data i = (i', None) -> reachable i'
| reach_UnmarshalText t i i' :
    reachable i -> t <> [] ->
    UnmarshalText (Some t) i = (i', None) -> reachable i'
| reach_SetValid n i : reachable i -> reachable (SetValid n i)
| reach_Scan value i :
    reachable i -> reachable (fst (Scan ConvertAssign value i))
| reach_Randomize nextInt fieldType shouldBeNull i :
    reachable i -> reachable (Randomize nextInt fieldType shouldBeNull i).

End Reachable.
Arguments reachable {src} ConvertAssign i.

(** The sentence "every JSON number below -128 that fits an [int64] is
    stored truncated with [Valid = true]", as a proposition about the code. *)
Definition below_min_stored_valid : Prop :=
  forall (data : list byte) (r : Z) (i : Int8),
    decodes_to_int64 data r = true -> r < MinInt8 ->
    UnmarshalJSON data i = ({| Int8v := int8 r; Valid := true |}, None).

(** The sentence "every state that the constructors and operations produce
    holds 0 when it is invalid", for the two operations it names. *)
Definition always_zero_when_invalid : Prop :=
  (forall v valid, zero_when_invalid (NewInt8 v valid)) /\
  (forall data i i',
     UnmarshalJSON data i = (i', None) -> Valid i' = false -> Int8v i' = 0).

(** A coercion to run [Scan] with: the driver values are integers, and an
    integer that is no [int8] is refused, the field staying as it was. *)
Definition sample_ConvertAssign (dest : Z) (x : Z) : Z * option error :=
  if (MinInt8 <=? x) && (x <=? MaxInt8) then (x, None)
  else (dest, Some (ConvertError (bytes "value out of range"))).

(** A byte that stands for itself inside a JSON string: printable ASCII other
    than the double quote and the backslash. *)
Definition plain_ascii (c : byte) : bool :=
  (32 <=? byte_val c) && (byte_val c <? 128) &&
  negb (is_quote c) && negb (is_byte c "\").


(** JSON white space: bytes that [isSpace] accepts. *)
Definition spaces (l : list byte) : Prop :=
  Forall (fun c => json.isSpace c = true) l.

(** What a driver hands back to [Scan] for a value that [Value] gave it: nil
    for nil, the integer for an [int64]. *)
Definition stored (v : driver_Value) : option Z :=
  match v with
  | driver_nil => None
  | driver_int64 n => Some n
  end.

(** * Properties *)

(** ** Fixed-width integers *)

Lemma int8_id (v : Z) : in_int8 v -> int8 v = v.
Proof.
  unfold in_int8, MinInt8, MaxInt8, int8, wrap_signed. intros Hv.
  change (2 ^ (8 - 1)) with 128. change (2 ^ 8) with 256.
  rewrite Z.mod_small; lia.
Qed.

Lemma int64_id (v : Z) : MinInt64 <= v <= MaxInt64 -> int64 v = v.
Proof.
  unfold MinInt64, MaxInt64, int64, wrap_signed. intros Hv.
  change (2 ^ (64 - 1)) with (2 ^ 63).
  rewrite Z.mod_small; lia.
Qed.

Lemma int64_of_int8 (v : Z) : in_int8 v -> int64 v = v.
Proof.
  unfold in_int8, MinInt8, MaxInt8. intros Hv.
  apply int64_id. unfold MinInt64, MaxInt64. lia.
Qed.

Lemma in_int8_values (v : Z) : in_int8 v -> In v int8_values.
Proof.
  unfold in_int8, MinInt8, MaxInt8, int8_values. intros Hv.
  apply in_map_iff. exists (Z.to_nat (v + 128)). split.
  - lia.
  - apply in_seq. lia.
Qed.

(** A property that a boolean test establishes on all 256 values holds on
    every [int8]. *)
Lemma int8_forall (f : Z -> bool) :
  forallb f int8_values = true -> forall v, in_int8 v -> f v = true.
Proof.
  intros Hall v Hv. rewrite forallb_forall in Hall.
  apply Hall, in_int8_values, Hv.
Qed.

(** ** strconv *)

Lemma ParseUint_loop_nonneg (maxVal : Z) (s : list byte) :
  0 <= maxVal -> forall n, 0 <= n -> 0 <= fst (strconv.ParseUint_loop maxVal s n).
Proof.
  intros Hmax. induction s as [|c s IH]; intros n Hn;
    cbn [strconv.ParseUint_loop].
  - exact Hn.
  - destruct (is_digit c); [|cbn [fst]; lia].
    destruct (maxUint64 / 10 + 1 <=? n); [cbn [fst]; lia|].
    destruct (_ || _); [cbn [fst]; lia|].
    apply IH. unfold uint64. apply Z.mod_pos_bound. lia.
Qed.

Lemma ParseUint_nonneg (s : list byte) (bitSize : Z) :
  0 <= fst (strconv.ParseUint s bitSize).
Proof.
  unfold strconv.ParseUint. destruct s as [|c s]; [cbn [fst]; lia|].
  apply ParseUint_loop_nonneg; [|lia].
  unfold uint64 at 1.
  pose proof (Z.mod_pos_bound (uint64 (2 ^ bitSize) - 1) (2 ^ 64)). lia.
Qed.

(** [strconv.ParseInt(s, 10, 8)] returns an [int8] whatever [s] is, also
    next to an error: a range error comes with the nearest bound. *)
Lemma ParseInt_8_in_int8 (s : list byte) : in_int8 (fst (strconv.ParseInt s 8)).
Proof.
  unfold strconv.ParseInt.
  destruct s as [|c s]; [vm_compute; split; discriminate|].
  set (p := if is_byte c "+" then _ else _). destruct p as [neg s1].
  pose proof (ParseUint_nonneg s1 8) as Hun.
  destruct (strconv.ParseUint s1 8) as [un e]. simpl in Hun.
  assert (Hgen :
    in_int8 (fst (
      if negb neg && (2 ^ (8 - 1) <=? un)
      then (int64 (2 ^ (8 - 1) - 1), Some (NumError "ParseInt" ErrRange))
      else if neg && (2 ^ (8 - 1) <? un)
      then (int64 (- int64 (2 ^ (8 - 1))), Some (NumError "ParseInt" ErrRange))
      else ((if neg then int64 (- int64 un) else int64 un), @None error)))).
  { change (2 ^ (8 - 1)) with 128.
    destruct neg; simpl negb; simpl andb.
    - destruct (Z.ltb_spec 128 un); [vm_compute; split; discriminate|].
      cbn [fst]. rewrite (int64_id un) by (unfold MinInt64, MaxInt64; lia).
      rewrite int64_id; unfold in_int8, MinInt8, MaxInt8, MinInt64, MaxInt64; lia.
    - destruct (Z.leb_spec 128 un); [vm_compute; split; discriminate|].
      cbn [fst]. rewrite int64_of_int8; unfold in_int8, MinInt8, MaxInt8; lia. }
  destruct e as [[|]|]; [vm_compute; split; discriminate | exact Hgen | exact Hgen].
Qed.

(** ** Decimal numbers of any size: strconv *)

Lemma byte_val_of (z : Z) : 0 <= z <= 255 -> byte_val (byte_of z) = z.
Proof.
  intros Hz. unfold byte_val, byte_of.
  pose proof (Byte.to_of_N_option_map (Z.to_N z)) as H.
  destruct (Byte.of_N (Z.to_N z)) as [b|]; cbn [option_map] in H.
  - destruct (N.leb_spec (Z.to_N z) 255); [|discriminate].
    inversion H as [Hb]. rewrite Hb. lia.
  - destruct (N.leb_spec (Z.to_N z) 255); [discriminate|lia].
Qed.

Lemma is_digit_range (c : byte) :
  is_digit c = true <-> 48 <= byte_val c <= 57.
Proof. unfold is_digit. rewrite andb_true_iff, !Z.leb_le. reflexivity. Qed.

Lemma is_digit_of (d : Z) : 0 <= d <= 9 -> is_digit (byte_of (48 + d)) = true.
Proof. intros Hd. apply is_digit_range. rewrite byte_val_of; lia. Qed.

Lemma dec_value_cons (c : byte) (ds : list byte) (n : Z) :
  dec_value (c :: ds) n = dec_value ds (n * 10 + (byte_val c - 48)).
Proof. reflexivity. Qed.

Lemma dec_value_ge (ds : list byte) :
  Forall (fun c => is_digit c = true) ds ->
  forall n, 0 <= n -> n <= dec_value ds n.
Proof.
  induction 1 as [|c ds Hc _ IH]; intros n Hn.
  - cbn. lia.
  - rewrite dec_value_cons. apply is_digit_range in Hc.
    specialize (IH (n * 10 + (byte_val c - 48))). lia.
Qed.

(** Where the digits stand for a number up to [maxVal], the loop of
    [ParseUint] reads that number and reports no error. *)
Lemma ParseUint_loop_digits (maxVal : Z) (ds : list byte) :
  maxVal <= maxUint64 ->
  Forall (fun c => is_digit c = true) ds ->
  forall n, 0 <= n -> dec_value ds n <= maxVal ->
  strconv.ParseUint_loop maxVal ds n = (dec_value ds n, None).
Proof.
  intros Hmax. induction 1 as [|c ds Hc Hds IH]; intros n Hn Hle.
  - reflexivity.
  - rewrite dec_value_cons in *. cbn [strconv.ParseUint_loop]. rewrite Hc.
    pose proof (proj1 (is_digit_range c) Hc) as Hr.
    pose proof (dec_value_ge ds Hds (n * 10 + (byte_val c - 48))) as Hge.
    assert (Hsum : 0 <= n * 10 + (byte_val c - 48) <= maxUint64) by lia.
    unfold maxUint64 in *.
    change (2 ^ 64 - 1) with 18446744073709551615 in *.
    change (18446744073709551615 / 10 + 1) with 1844674407370955162.
    destruct (Z.leb_spec 1844674407370955162 n); [lia|].
    unfold uint64. change (2 ^ 64) with 18446744073709551616.
    rewrite Z.mod_small by lia.
    destruct (Z.ltb_spec (n * 10 + (byte_val c - 48)) (n * 10)); [lia|].
    destruct (Z.ltb_spec maxVal (n * 10 + (byte_val c - 48))); [lia|].
    cbn [orb]. apply IH; lia.
Qed.

(** The output of the digit loop of [FormatInt]. *)
Lemma formatBits_loop_digits (fuel : nat) :
  forall u acc, 0 <= u ->
  Forall (fun c => is_digit c = true) acc ->
  Forall (fun c => is_digit c = true) (strconv.formatBits_loop fuel u acc).
Proof.
  induction fuel as [|fuel IH]; intros u acc Hu Hacc;
    cbn [strconv.formatBits_loop].
  - exact Hacc.
  - assert (Hd : is_digit (byte_of (48 + u mod 10)) = true).
    { apply is_digit_of. pose proof (Z.mod_pos_bound u 10). lia. }
    destruct (u <? 10).
    + constructor; assumption.
    + apply IH; [apply Z.div_pos; lia | constructor; assumption].
Qed.

Lemma formatBits_loop_value (fuel : nat) :
  forall u acc, 0 <= u < 10 ^ Z.of_nat fuel ->
  dec_value (strconv.formatBits_loop fuel u acc) 0 = dec_value acc u.
Proof.
  induction fuel as [|fuel IH]; intros u acc Hu;
    cbn [strconv.formatBits_loop].
  - change (10 ^ Z.of_nat 0) with 1 in Hu. replace u with 0 by lia. reflexivity.
  - pose proof (Z.mod_pos_bound u 10 ltac:(lia)) as Hm.
    destruct (Z.ltb_spec u 10).
    + rewrite dec_value_cons, byte_val_of by lia.
      rewrite Z.mod_small by lia. f_equal. lia.
    + rewrite IH.
      * rewrite dec_value_cons, byte_val_of by lia. f_equal.
        pose proof (Z.div_mod u 10). lia.
      * rewrite Nat2Z.inj_succ, Z.pow_succ_r in Hu by lia.
        split; [apply Z.div_pos; lia|].
        apply Z.div_lt_upper_bound; lia.
Qed.

Lemma formatBits_loop_length (fuel : nat) :
  forall u acc,
  (List.length (strconv.formatBits_loop fuel u acc) <= fuel + List.length acc)%nat.
Proof.
  induction fuel as [|fuel IH]; intros u acc; cbn [strconv.formatBits_loop].
  - lia.
  - destruct (u <? 10).
    + cbn [List.length]. lia.
    + specialize (IH (u / 10) (byte_of (48 + u mod 10) :: acc)).
      cbn [List.length] in IH. lia.
Qed.

(** The first digit written for a positive number is not 0. *)
Lemma formatBits_loop_head (fuel : nat) :
  forall u acc, 0 < u < 10 ^ Z.of_nat fuel ->
  exists c rest,
    strconv.formatBits_loop fuel u acc = c :: rest /\
    49 <= byte_val c <= 57.
Proof.
  induction fuel as [|fuel IH]; intros u acc Hu;
    cbn [strconv.formatBits_loop].
  - change (10 ^ Z.of_nat 0) with 1 in Hu. lia.
  - destruct (Z.ltb_spec u 10).
    + eexists _, _. split; [reflexivity|].
      rewrite byte_val_of; rewrite Z.mod_small; lia.
    + apply IH.
      rewrite Nat2Z.inj_succ, Z.pow_succ_r in Hu by lia.
      split; [apply Z.div_str_pos; lia|].
      apply Z.div_lt_upper_bound; lia.
Qed.

Lemma byte_of_val (c : byte) : byte_of (byte_val c) = c.
Proof.
  unfold byte_of, byte_val. rewrite N2Z.id, Byte.of_to_N. reflexivity.
Qed.

Lemma is_digit19_cases (c : byte) :
  is_digit19 c = true -> In c (bytes "123456789").
Proof.
  unfold is_digit19. rewrite andb_true_iff, !Z.leb_le. intros H.
  rewrite <- (byte_of_val c).
  assert (Hc : byte_val c = 49 \/ byte_val c = 50 \/ byte_val c = 51 \/
               byte_val c = 52 \/ byte_val c = 53 \/ byte_val c = 54 \/
               byte_val c = 55 \/ byte_val c = 56 \/ byte_val c = 57) by lia.
  repeat (destruct Hc as [-> | Hc]; [cbn; tauto|]).
  rewrite Hc. cbn. tauto.
Qed.

Lemma is_digit19_digit (c : byte) : is_digit19 c = true -> is_digit c = true.
Proof.
  unfold is_digit19, is_digit. rewrite !andb_true_iff, !Z.leb_le. lia.
Qed.

Lemma is_digit_cases (c : byte) :
  is_digit c = true -> In c (bytes "0123456789").
Proof.
  intros H. apply is_digit_range in H.
  destruct (Z.eq_dec (byte_val c) 48) as [E|E].
  - left. rewrite <- (byte_of_val c), E. reflexivity.
  - right. apply is_digit19_cases. unfold is_digit19.
    rewrite andb_true_iff, !Z.leb_le. lia.
Qed.

(** What [FormatInt] writes for a positive [uint64]. *)
Lemma formatBits_pos_decimal (u : Z) :
  0 < u <= maxUint64 ->
  pos_decimal (strconv.formatBits_loop 20 u []) /\
  dec_value (strconv.formatBits_loop 20 u []) 0 = u /\
  (List.length (strconv.formatBits_loop 20 u []) <= 20)%nat.
Proof.
  intros Hu.
  assert (Hb : 0 < u < 10 ^ Z.of_nat 20).
  { unfold maxUint64 in Hu. change (10 ^ Z.of_nat 20) with 100000000000000000000.
    change (2 ^ 64 - 1) with 18446744073709551615 in Hu. lia. }
  split; [|split].
  - destruct (formatBits_loop_head 20 u [] Hb) as (c & rest & E & Hc).
    pose proof (formatBits_loop_digits 20 u [] ltac:(lia) (Forall_nil _)) as Hd.
    rewrite E in *. split.
    + unfold is_digit19. rewrite andb_true_iff, !Z.leb_le. lia.
    + inversion Hd. assumption.
  - rewrite formatBits_loop_value by lia. reflexivity.
  - pose proof (formatBits_loop_length 20 u []). cbn [List.length] in *. lia.
Qed.

Lemma pos_decimal_digits (ds : list byte) :
  pos_decimal ds -> Forall (fun c => is_digit c = true) ds.
Proof.
  destruct ds as [|c rest]; [contradiction|]. intros [Hc Hrest].
  constructor; [apply is_digit19_digit, Hc | exact Hrest].
Qed.

Lemma ParseUint_pos_decimal (ds : list byte) :
  pos_decimal ds -> dec_value ds 0 <= maxUint64 ->
  strconv.ParseUint ds 64 = (dec_value ds 0, None).
Proof.
  intros Hd Hle. unfold strconv.ParseUint.
  destruct ds as [|c rest]; [contradiction|].
  change (uint64 (uint64 (2 ^ 64) - 1)) with maxUint64.
  apply ParseUint_loop_digits; [lia | apply pos_decimal_digits, Hd | lia | exact Hle].
Qed.

Lemma pos_decimal_value_pos (ds : list byte) : pos_decimal ds -> 0 < dec_value ds 0.
Proof.
  destruct ds as [|c rest]; [contradiction|]. intros [Hc Hrest].
  rewrite dec_value_cons.
  unfold is_digit19 in Hc. rewrite andb_true_iff, !Z.leb_le in Hc.
  pose proof (dec_value_ge rest Hrest (0 * 10 + (byte_val c - 48))). lia.
Qed.

(** [strconv.ParseInt(s, 10, 64)] reads a positive decimal, and a negated
    one, back as the [int64] it stands for. *)
Lemma ParseInt_pos_decimal (ds : list byte) :
  pos_decimal ds -> dec_value ds 0 <= MaxInt64 ->
  strconv.ParseInt ds 64 = (dec_value ds 0, None).
Proof.
  intros Hd Hle. pose proof (pos_decimal_value_pos ds Hd) as Hpos.
  unfold MaxInt64 in Hle. change (2 ^ 63 - 1) with 9223372036854775807 in Hle.
  unfold strconv.ParseInt.
  destruct ds as [|c rest] eqn:E; [contradiction|].
  assert (Hsign : is_byte c "+" = false /\ is_byte c "-" = false).
  { destruct Hd as [Hc _]. apply is_digit19_cases in Hc. cbn in Hc.
    repeat (destruct Hc as [<- | Hc]; [split; reflexivity|]). contradiction. }
  destruct Hsign as [-> ->]. rewrite <- E in *.
  rewrite ParseUint_pos_decimal
    by (try assumption; unfold maxUint64;
        change (2 ^ 64 - 1) with 18446744073709551615; lia).
  change (2 ^ (64 - 1)) with 9223372036854775808. cbn [negb andb].
  destruct (Z.leb_spec 9223372036854775808 (dec_value ds 0)); [lia|].
  rewrite int64_id
    by (unfold MinInt64, MaxInt64; change (2 ^ 63) with 9223372036854775808; lia).
  reflexivity.
Qed.

Lemma ParseInt_neg_decimal (ds : list byte) :
  pos_decimal ds -> dec_value ds 0 <= - MinInt64 ->
  strconv.ParseInt (bytes "-" ++ ds) 64 = (- dec_value ds 0, None).
Proof.
  intros Hd Hle. pose proof (pos_decimal_value_pos ds Hd) as Hpos.
  unfold MinInt64 in Hle. change (- - 2 ^ 63) with 9223372036854775808 in Hle.
  change (bytes "-" ++ ds) with (x2d :: ds). unfold strconv.ParseInt.
  change (is_byte x2d "+") with false. change (is_byte x2d "-") with true.
  cbn iota beta.
  rewrite ParseUint_pos_decimal
    by (try assumption; unfold maxUint64;
        change (2 ^ 64 - 1) with 18446744073709551615; lia).
  change (2 ^ (64 - 1)) with 9223372036854775808. cbn [negb andb].
  destruct (Z.ltb_spec 9223372036854775808 (dec_value ds 0)); [lia|].
  f_equal.
  destruct (Z.eq_dec (dec_value ds 0) 9223372036854775808) as [E|E].
  - rewrite E. reflexivity.
  - rewrite (int64_id (dec_value ds 0))
      by (unfold MinInt64, MaxInt64; change (2 ^ 63) with 9223372036854775808; lia).
    apply int64_id.
    unfold MinInt64, MaxInt64; change (2 ^ 63) with 9223372036854775808; lia.
Qed.

(** [strconv.ParseInt(s, 10, 8)] on an optional sign and digits (zeros in
    front allowed) that stand for an [int8]. *)
Lemma ParseInt_8_signed_digits (ds : list byte) :
  ds <> [] -> Forall (fun c => is_digit c = true) ds ->
  (dec_value ds 0 <= MaxInt8 ->
   strconv.ParseInt ds 8 = (dec_value ds 0, None) /\
   strconv.ParseInt (bytes "+" ++ ds) 8 = (dec_value ds 0, None)) /\
  (dec_value ds 0 <= - MinInt8 ->
   strconv.ParseInt (bytes "-" ++ ds) 8 = (- dec_value ds 0, None)).
Proof.
  intros Hne Hds. unfold MaxInt8, MinInt8.
  pose proof (dec_value_ge ds Hds 0 ltac:(lia)) as Hpos.
  assert (Hu : dec_value ds 0 <= 255 ->
               strconv.ParseUint ds 8 = (dec_value ds 0, None)).
  { intros Hle. unfold strconv.ParseUint.
    destruct ds as [|c rest] eqn:E; [contradiction|]. rewrite <- E in *.
    change (uint64 (uint64 (2 ^ 8) - 1)) with 255.
    apply ParseUint_loop_digits; try assumption; [|lia].
    unfold maxUint64. change (2 ^ 64 - 1) with 18446744073709551615. lia. }
  split.
  - intros Hle. split.
    + destruct ds as [|c rest]; [contradiction|].
      assert (Hsign : is_byte c "+" = false /\ is_byte c "-" = false).
      { inversion Hds as [|? ? Hc _]. apply is_digit_cases in Hc. cbn in Hc.
        repeat (destruct Hc as [<- | Hc]; [split; reflexivity|]). contradiction. }
      destruct Hsign as [Hp Hm].
      unfold strconv.ParseInt. rewrite Hp, Hm, Hu by lia.
      change (2 ^ (8 - 1)) with 128. cbn [negb andb].
      destruct (Z.leb_spec 128 (dec_value (c :: rest) 0)); [lia|].
      rewrite int64_of_int8 by (unfold in_int8, MinInt8, MaxInt8; lia).
      reflexivity.
    + change (bytes "+" ++ ds) with (x2b :: ds). unfold strconv.ParseInt.
      change (is_byte x2b "+") with true. cbn iota beta.
      rewrite Hu by lia. change (2 ^ (8 - 1)) with 128. cbn [negb andb].
      destruct (Z.leb_spec 128 (dec_value ds 0)); [lia|].
      rewrite int64_of_int8 by (unfold in_int8, MinInt8, MaxInt8; lia).
      reflexivity.
  - intros Hle. change (- -128) with 128 in Hle.
    change (bytes "-" ++ ds) with (x2d :: ds). unfold strconv.ParseInt.
    change (is_byte x2d "+") with false. change (is_byte x2d "-") with true.
    cbn iota beta.
    rewrite Hu by lia. change (2 ^ (8 - 1)) with 128. cbn [negb andb].
    destruct (Z.ltb_spec 128 (dec_value ds 0)); [lia|].
    rewrite (int64_id (dec_value ds 0))
      by (unfold MinInt64, MaxInt64; change (2 ^ 63) with 9223372036854775808; lia).
    rewrite int64_id
      by (unfold MinInt64, MaxInt64; change (2 ^ 63) with 9223372036854775808; lia).
    reflexivity.
Qed.

(** ** Decimal numbers of any size: encoding/json *)

Lemma scan_step_state1_digit (ps : list json.parse_state) (c : byte) :
  is_digit c = true ->
  json.scan_step (json.mkScanner json.state1 ps) c =
  Some (json.mkScanner json.state1 ps).
Proof.
  intros Hc. cbn [json.scan_step json.step]. unfold json.do_state1.
  rewrite Hc. reflexivity.
Qed.

Lemma scan_step_first_digit (c : byte) :
  is_digit19 c = true ->
  json.scan_step json.reset c = Some (json.mkScanner json.state1 []) /\
  json.scan_step (json.mkScanner json.stateNeg []) c =
    Some (json.mkScanner json.state1 []).
Proof.
  intros Hc. apply is_digit19_cases in Hc. cbn in Hc.
  repeat (destruct Hc as [<- | Hc]; [split; reflexivity|]). contradiction.
Qed.

Lemma scan_bytes_state1_digits (ps : list json.parse_state) (ds : list byte) :
  Forall (fun c => is_digit c = true) ds ->
  json.scan_bytes (json.mkScanner json.state1 ps) ds =
  Some (json.mkScanner json.state1 ps).
Proof.
  induction 1 as [|c ds Hc _ IH]; cbn [json.scan_bytes].
  - reflexivity.
  - rewrite scan_step_state1_digit by exact Hc. exact IH.
Qed.

Lemma checkValid_decimal (ds : list byte) :
  pos_decimal ds ->
  json.checkValid ds = true /\ json.checkValid (bytes "-" ++ ds) = true.
Proof.
  destruct ds as [|c rest]; [contradiction|]. intros [Hc Hrest].
  destruct (scan_step_first_digit c Hc) as [H1 H2].
  change (bytes "-" ++ c :: rest) with (x2d :: c :: rest).
  unfold json.checkValid. cbn [json.scan_bytes].
  change (json.scan_step json.reset x2d)
    with (Some (json.mkScanner json.stateNeg [])).
  cbn iota beta. rewrite H1, H2, scan_bytes_state1_digits by exact Hrest.
  split; reflexivity.
Qed.

Lemma literals_from_state1 (ps : list json.parse_state) (ds : list byte) :
  Forall (fun c => is_digit c = true) ds ->
  forall cur,
  json.literals_from (json.mkScanner json.state1 ps) cur ds = [rev cur ++ ds].
Proof.
  induction 1 as [|c ds Hc _ IH]; intros cur; cbn [json.literals_from].
  - cbn. rewrite app_nil_r. reflexivity.
  - rewrite scan_step_state1_digit by exact Hc. cbn [json.step json.in_number].
    rewrite IH. cbn [rev]. rewrite <- app_assoc. reflexivity.
Qed.

Lemma number_literals_decimal (ds : list byte) :
  pos_decimal ds ->
  json.number_literals ds = [ds] /\
  json.number_literals (bytes "-" ++ ds) = [bytes "-" ++ ds].
Proof.
  destruct ds as [|c rest]; [contradiction|]. intros [Hc Hrest].
  destruct (scan_step_first_digit c Hc) as [H1 H2].
  change (bytes "-" ++ c :: rest) with (x2d :: c :: rest).
  unfold json.number_literals. cbn [json.literals_from].
  change (json.scan_step json.reset x2d)
    with (Some (json.mkScanner json.stateNeg [])).
  cbn iota beta. rewrite H1, H2. cbn [json.step json.in_number].
  rewrite !literals_from_state1 by exact Hrest. split; reflexivity.
Qed.

Lemma readFloat_digits_integer (ds : list byte) :
  Forall (fun c => is_digit c = true) ds ->
  forall m nd dp, 0 < nd ->
  json.readFloat_digits ds false m nd dp =
  (dec_value ds m, nd + Z.of_nat (List.length ds),
   nd + Z.of_nat (List.length ds), []).
Proof.
  induction 1 as [|c ds Hc _ IH]; intros m nd dp Hnd;
    cbn [json.readFloat_digits].
  - cbn [List.length dec_value fold_left]. rewrite Z.add_0_r. reflexivity.
  - assert (Hdot : is_byte c "." = false).
    { apply is_digit_cases in Hc. cbn in Hc.
      repeat (destruct Hc as [<- | Hc]; [reflexivity|]). contradiction. }
    rewrite Hdot, Hc.
    destruct (Z.eqb_spec nd 0); [lia|]. rewrite andb_false_r.
    rewrite IH by lia. rewrite dec_value_cons. cbn [List.length].
    rewrite Nat2Z.inj_succ.
    replace (nd + 1 + Z.of_nat (List.length ds))
      with (nd + Z.succ (Z.of_nat (List.length ds))) by lia.
    reflexivity.
Qed.

Lemma readFloat_decimal (ds : list byte) :
  pos_decimal ds ->
  json.readFloat ds =
    (dec_value ds 0, Z.of_nat (List.length ds), Z.of_nat (List.length ds)) /\
  json.readFloat (bytes "-" ++ ds) = json.readFloat ds.
Proof.
  destruct ds as [|c rest]; [contradiction|]. intros [Hc Hrest].
  assert (Hhead : is_byte c "-" = false /\ is_byte c "." = false /\
                  is_byte c "0" = false /\ is_digit c = true).
  { apply is_digit19_cases in Hc. cbn in Hc.
    repeat (destruct Hc as [<- | Hc]; [repeat split; reflexivity|]).
    contradiction. }
  destruct Hhead as (Hm & Hdot & H0 & Hd).
  split.
  - unfold json.readFloat. rewrite Hm. cbn [json.readFloat_digits].
    rewrite Hdot, Hd, H0. cbn [andb].
    rewrite readFloat_digits_integer by (try assumption; lia).
    rewrite dec_value_cons. cbn [List.length].
    rewrite Nat2Z.inj_succ.
    replace (0 + 1 + Z.of_nat (List.length rest))
      with (Z.succ (Z.of_nat (List.length rest))) by lia.
    reflexivity.
  - change (bytes "-" ++ c :: rest) with (x2d :: c :: rest).
    unfold json.readFloat. change (is_byte x2d "-") with true.
    rewrite Hm. reflexivity.
Qed.

(** A decimal integer of at most 20 digits below [2^64] is within the range
    of a [float64]. *)
Lemma float64_overflows_decimal (ds : list byte) :
  pos_decimal ds -> dec_value ds 0 <= maxUint64 ->
  (List.length ds <= 20)%nat ->
  json.float64_overflows ds = false /\
  json.float64_overflows (bytes "-" ++ ds) = false.
Proof.
  intros Hd Hle Hlen. destruct (readFloat_decimal ds Hd) as [H1 H2].
  assert (H : json.float64_overflows ds = false).
  { unfold json.float64_overflows. rewrite H1.
    pose proof (pos_decimal_value_pos ds Hd).
    destruct (Z.eqb_spec (dec_value ds 0) 0); [reflexivity|].
    destruct (Z.ltb_spec 310 (Z.of_nat (List.length ds))); [lia|].
    destruct (Z.ltb_spec (Z.of_nat (List.length ds)) (-330)); [lia|].
    rewrite Z.leb_refl, Z.sub_diag. change (10 ^ 0) with 1.
    apply Z.leb_gt. unfold maxUint64 in Hle.
    assert (2 ^ 64 < json.float64_limit) by (vm_compute; reflexivity). lia. }
  split; [exact H|].
  unfold json.float64_overflows in *. rewrite H2. exact H.
Qed.

Lemma skip_space_head (l : list byte) :
  match l with c :: _ => json.isSpace c = false | [] => True end ->
  json.skip_space l = l.
Proof.
  destruct l as [|c l]; [reflexivity|]. intros H.
  cbn [json.skip_space]. rewrite H. reflexivity.
Qed.

Lemma top_level_no_space (l : list byte) :
  Forall (fun c => json.isSpace c = false) l -> json.top_level l = l.
Proof.
  intros H. unfold json.top_level.
  rewrite (skip_space_head l) by (destruct H; [exact I | assumption]).
  apply Forall_rev in H.
  rewrite (skip_space_head (rev l)) by (destruct H; [exact I | assumption]).
  apply rev_involutive.
Qed.

Lemma is_digit_not_space (c : byte) : is_digit c = true -> json.isSpace c = false.
Proof.
  intros H. apply is_digit_range in H. unfold json.isSpace.
  destruct (Z.leb_spec (byte_val c) 32); [lia|reflexivity].
Qed.

Lemma top_level_decimal (ds : list byte) :
  pos_decimal ds ->
  json.top_level ds = ds /\
  json.top_level (bytes "-" ++ ds) = bytes "-" ++ ds.
Proof.
  intros Hd. apply pos_decimal_digits in Hd.
  assert (Hs : Forall (fun c => json.isSpace c = false) ds).
  { eapply Forall_impl; [|exact Hd]. apply is_digit_not_space. }
  split; apply top_level_no_space; [exact Hs|].
  constructor; [reflexivity | exact Hs].
Qed.

(** A valid input that starts with a digit or a minus sign, without space
    around it, is a number for both targets of [json.Unmarshal]. *)
Lemma Unmarshal_number (c : byte) (rest : list byte) (r : Z) :
  In c (bytes "-0123456789") ->
  json.checkValid (c :: rest) = true ->
  existsb json.float64_overflows (json.number_literals (c :: rest)) = false ->
  json.top_level (c :: rest) = c :: rest ->
  bytes_Equal (c :: rest) NullBytes = false /\
  json.Unmarshal_interface (c :: rest) = json.Ok (json.Float64 (c :: rest)) /\
  json.Unmarshal_int64 (c :: rest) r =
    match strconv.ParseInt (c :: rest) 64 with
    | (n, None) => (n, None)
    | (_, Some _) => (r, Some JSONUnmarshalTypeError)
    end.
Proof.
  intros Hc Hv Hf Ht.
  unfold json.Unmarshal_interface, json.Unmarshal_int64.
  rewrite Hv, Hf, Ht. cbn in Hc.
  repeat (destruct Hc as [<- | Hc]; [repeat split; reflexivity|]).
  contradiction.
Qed.

Lemma decodes_to_int64_number (c : byte) (rest : list byte) (n : Z) :
  In c (bytes "-0123456789") ->
  json.checkValid (c :: rest) = true ->
  existsb json.float64_overflows (json.number_literals (c :: rest)) = false ->
  json.top_level (c :: rest) = c :: rest ->
  strconv.ParseInt (c :: rest) 64 = (n, None) ->
  decodes_to_int64 (c :: rest) n = true.
Proof.
  intros Hc Hv Hf Ht Hp.
  destruct (Unmarshal_number c rest 0 Hc Hv Hf Ht) as (H1 & H2 & H3).
  unfold decodes_to_int64. rewrite H1, H2, H3, Hp, Z.eqb_refl. reflexivity.
Qed.

(** A positive decimal in the range of an [int64], and a negated one, are
    JSON numbers that [json.Unmarshal] stores in an [int64] as the number
    they stand for. *)
Lemma pos_decimal_decodes (ds : list byte) :
  pos_decimal ds -> (List.length ds <= 20)%nat ->
  dec_value ds 0 <= MaxInt64 ->
  decodes_to_int64 ds (dec_value ds 0) = true.
Proof.
  intros Hd Hlen Hle.
  assert (Hu : dec_value ds 0 <= maxUint64).
  { unfold MaxInt64, maxUint64 in *.
    change (2 ^ 63 - 1) with 9223372036854775807 in Hle.
    change (2 ^ 64 - 1) with 18446744073709551615. lia. }
  destruct (checkValid_decimal ds Hd) as [Hv _].
  destruct (number_literals_decimal ds Hd) as [Hn _].
  destruct (float64_overflows_decimal ds Hd Hu Hlen) as [Hf _].
  destruct (top_level_decimal ds Hd) as [Ht _].
  pose proof (ParseInt_pos_decimal ds Hd Hle) as Hp.
  destruct ds as [|c rest] eqn:E; [contradiction|]. rewrite <- E in *.
  assert (Hc : In c (bytes "-0123456789")).
  { rewrite E in Hd. destruct Hd as [Hc _].
    right. apply is_digit_cases, is_digit19_digit, Hc. }
  rewrite E in *.
  apply decodes_to_int64_number; try assumption.
  rewrite Hn. cbn [existsb]. rewrite Hf. reflexivity.
Qed.

Lemma neg_decimal_decodes (ds : list byte) :
  pos_decimal ds -> (List.length ds <= 20)%nat ->
  dec_value ds 0 <= - MinInt64 ->
  decodes_to_int64 (bytes "-" ++ ds) (- dec_value ds 0) = true.
Proof.
  intros Hd Hlen Hle.
  assert (Hu : dec_value ds 0 <= maxUint64).
  { unfold MinInt64, maxUint64 in *.
    change (- - 2 ^ 63) with 9223372036854775808 in Hle.
    change (2 ^ 64 - 1) with 18446744073709551615. lia. }
  destruct (checkValid_decimal ds Hd) as [_ Hv].
  destruct (number_literals_decimal ds Hd) as [_ Hn].
  destruct (float64_overflows_decimal ds Hd Hu Hlen) as [_ Hf].
  destruct (top_level_decimal ds Hd) as [_ Ht].
  pose proof (ParseInt_neg_decimal ds Hd Hle) as Hp.
  change (bytes "-" ++ ds) with (x2d :: ds) in *.
  apply decodes_to_int64_number; try assumption.
  - left. reflexivity.
  - rewrite Hn. cbn [existsb]. rewrite Hf. reflexivity.
Qed.

(** Every [int64] that [strconv.FormatInt] writes is a JSON number that
    [json.Unmarshal] stores in an [int64] as the same integer. *)
Lemma FormatInt_decodes (n : Z) :
  MinInt64 <= n <= MaxInt64 ->
  decodes_to_int64 (strconv.FormatInt n) n = true.
Proof.
  unfold MinInt64, MaxInt64.
  change (2 ^ 63) with 9223372036854775808. intros Hn.
  unfold strconv.FormatInt, uint64. change (2 ^ 64) with 18446744073709551616.
  destruct (Z.ltb_spec n 0) as [Hneg | Hpos].
  - assert (Hu : (- (n mod 18446744073709551616)) mod 18446744073709551616 = - n).
    { replace (n mod 18446744073709551616) with (n + 18446744073709551616).
      - replace (- (n + 18446744073709551616))
          with (- n + (-1) * 18446744073709551616) by lia.
        rewrite Z.mod_add by lia. apply Z.mod_small. lia.
      - replace (n + 18446744073709551616)
          with ((n + 18446744073709551616) mod 18446744073709551616)
          by (apply Z.mod_small; lia).
        replace (n + 18446744073709551616)
          with (n + 1 * 18446744073709551616) by lia.
        rewrite Z.mod_add by lia. reflexivity. }
    rewrite Hu.
    destruct (formatBits_pos_decimal (- n)) as (Hd & Hval & Hlen).
    { unfold maxUint64. change (2 ^ 64 - 1) with 18446744073709551615. lia. }
    replace n with (- dec_value (strconv.formatBits_loop 20 (- n) []) 0) at 2
      by (rewrite Hval; lia).
    apply neg_decimal_decodes; try assumption.
    rewrite Hval. unfold MinInt64. change (2 ^ 63) with 9223372036854775808. lia.
  - rewrite Z.mod_small by lia.
    destruct (Z.eq_dec n 0) as [-> | Hnz]; [vm_compute; reflexivity|].
    destruct (formatBits_pos_decimal n) as (Hd & Hval & Hlen).
    { unfold maxUint64. change (2 ^ 64 - 1) with 18446744073709551615. lia. }
    replace n with (dec_value (strconv.formatBits_loop 20 n []) 0) at 2
      by exact Hval.
    apply pos_decimal_decodes; try assumption.
    rewrite Hval. unfold MaxInt64. change (2 ^ 63) with 9223372036854775808. lia.
Qed.

(** ** UnmarshalJSON: the branches of the switch *)

Lemma UnmarshalJSON_candidate (data : list byte) (r : Z) (err : option error)
    (i : Int8) :
  candidate data r err -> UnmarshalJSON data i = UnmarshalJSON_store r err i.
Proof.
  intros [lit Hnull Hv Hr | str Hnull Hv Hne Hr]; unfold UnmarshalJSON;
    rewrite Hnull, Hv.
  - rewrite Hr. reflexivity.
  - destruct str as [|c str]; [contradiction|].
    cbn [List.length]. rewrite Hr.
    destruct (Z.eqb_spec (Z.of_nat (S (List.length str))) 0); [lia|reflexivity].
Qed.

Lemma decodes_to_int64_candidate (data : list byte) (r : Z) :
  decodes_to_int64 data r = true -> candidate data r None.
Proof.
  unfold decodes_to_int64. intros H.
  apply andb_prop in H as [H Hr]. apply andb_prop in H as [Hnull Hv].
  apply negb_true_iff in Hnull.
  destruct (json.Unmarshal_interface data) as [[| | lit | | |]|] eqn:Ev;
    try discriminate.
  destruct (json.Unmarshal_int64 data 0) as [n [e|]] eqn:En; try discriminate.
  apply Z.eqb_eq in Hr. subst n.
  exact (candidate_number data r None lit Hnull Ev En).
Qed.

(** The string branch never reaches the overflow test with a candidate
    above 127: [strconv.ParseInt] has clamped it. *)
Lemma candidate_string_le_MaxInt8 (str : list byte) (r : Z) (err : option error) :
  strconv.ParseInt str 8 = (r, err) -> r <= MaxInt8.
Proof.
  intros H. pose proof (ParseInt_8_in_int8 str) as Hr.
  rewrite H in Hr. apply Hr.
Qed.

(** The overflow test: above 127 nothing is stored. *)
Lemma UnmarshalJSON_store_gt (r : Z) (err : option error) (i : Int8) :
  MaxInt8 < r -> UnmarshalJSON_store r err i = (i, Some (errOverflow r)).
Proof.
  intros Hr. unfold UnmarshalJSON_store.
  destruct (Z.ltb_spec MaxInt8 r); [reflexivity|lia].
Qed.

(** C3: a JSON decode through the number or the string branch whose
    candidate integer [r] is above 127 fails with the overflow error, and the
    receiver keeps the value and the valid flag it had: nothing is truncated
    or stored. *)
Theorem UnmarshalJSON_overflow (data : list byte) (r : Z) (err : option error)
    (i : Int8) :
  candidate data r err ->
  MaxInt8 < r ->
  UnmarshalJSON data i = (i, Some (errOverflow r)).
Proof.
  intros Hc Hr. rewrite (UnmarshalJSON_candidate data r err i Hc).
  apply UnmarshalJSON_store_gt, Hr.
Qed.

Lemma UnmarshalJSON_overflow_witness :
  UnmarshalJSON (bytes "128") (Int8From 5) = (Int8From 5, Some (errOverflow 128)).
Proof.
  apply (UnmarshalJSON_overflow (bytes "128") 128 None (Int8From 5)).
  - apply decodes_to_int64_candidate. vm_compute. reflexivity.
  - unfold MaxInt8. lia.
Defined.

(** What the end of [UnmarshalJSON] stores for a candidate that is no
    overflow. *)
Lemma UnmarshalJSON_store_le (r : Z) (err : option error) (i : Int8) :
  r <= MaxInt8 ->
  UnmarshalJSON_store r err i =
  ({| Int8v := int8 r; Valid := is_nil err && negb (int8 r =? 0) |}, err).
Proof.
  intros Hr. unfold UnmarshalJSON_store.
  destruct (Z.ltb_spec MaxInt8 r); [lia|reflexivity].
Qed.

Lemma UnmarshalJSON_minus_256 :
  decodes_to_int64 (bytes "-256") (-256) = true /\
  UnmarshalJSON (bytes "-256") (Int8From 5) =
  ({| Int8v := 0; Valid := false |}, None).
Proof. split; vm_compute; reflexivity. Qed.

(** C4, counterexample: the JSON number -256 is below -128 and fits an
    [int64]; [UnmarshalJSON] stores its truncation 0 with [Valid = false],
    not with [Valid = true]. *)
Lemma below_min_stored_invalid :
  decodes_to_int64 (bytes "-256") (-256) = true /\
  -256 < MinInt8 /\
  UnmarshalJSON (bytes "-256") (Int8From 5) <>
  ({| Int8v := int8 (-256); Valid := true |}, None).
Proof.
  destruct UnmarshalJSON_minus_256 as [Hd Hrun].
  split; [exact Hd|]. split; [unfold MinInt8; lia|].
  rewrite Hrun. discriminate.
Qed.

Lemma not_below_min_stored_valid : ~ below_min_stored_valid.
Proof.
  intros H.
  destruct UnmarshalJSON_minus_256 as [Hd Hrun].
  specialize (H (bytes "-256") (-256) (Int8From 5) Hd).
  rewrite Hrun in H.
  assert (Hlt : -256 < MinInt8) by (unfold MinInt8; lia).
  specialize (H Hlt). discriminate H.
Qed.

(** C4, amended: a JSON number below -128 that fits an [int64] is not
    rejected: [UnmarshalJSON] returns no error and stores the truncation
    [int8 r]; [Valid] is true exactly when that truncation is not 0. *)
Theorem UnmarshalJSON_below_min (data : list byte) (r : Z) (i : Int8) :
  decodes_to_int64 data r = true ->
  r < MinInt8 ->
  UnmarshalJSON data i =
  ({| Int8v := int8 r; Valid := negb (int8 r =? 0) |}, None).
Proof.
  intros Hd Hr.
  rewrite (UnmarshalJSON_candidate data r None i (decodes_to_int64_candidate _ _ Hd)).
  rewrite UnmarshalJSON_store_le by (unfold MinInt8, MaxInt8 in *; lia).
  reflexivity.
Qed.

Lemma UnmarshalJSON_below_min_witness :
  UnmarshalJSON (bytes "-129") (Int8From 5) =
  ({| Int8v := 127; Valid := true |}, None).
Proof.
  apply (UnmarshalJSON_below_min (bytes "-129") (-129) (Int8From 5)).
  - vm_compute. reflexivity.
  - unfold MinInt8. lia.
Defined.

(** C5: decoding the bytes of the [null] literal stores 0 with
    [Valid = false], decoding the empty JSON string sets [Valid] to false, and
    neither returns an error. *)
Theorem UnmarshalJSON_null_and_empty_string (i : Int8) :
  UnmarshalJSON NullBytes i = ({| Int8v := 0; Valid := false |}, None) /\
  UnmarshalJSON empty_JSON_string i = ({| Int8v := Int8v i; Valid := false |}, None).
Proof. split; reflexivity. Qed.

(** Booleans, arrays and objects take the default branch: the error is
    built from the name of the dynamic type, and the receiver is set to 0
    and invalid. *)
Lemma UnmarshalJSON_default_branch (data : list byte) (v : json.value) (i : Int8) :
  bytes_Equal data NullBytes = false ->
  json.Unmarshal_interface data = json.Ok v ->
  (exists b, v = json.Bool b) \/ v = json.Slice \/ v = json.Map ->
  UnmarshalJSON data i =
  ({| Int8v := 0; Valid := false |},
   Some (errUnsupported (reflect_TypeOf_Name v))).
Proof.
  intros Hnull Hv Hkind. unfold UnmarshalJSON. rewrite Hnull, Hv.
  destruct Hkind as [[b ->] | [-> | ->]]; reflexivity.
Qed.

(** C6: the code at three inputs of unsupported kind.  [true] is refused
    with an error that names [bool]; an array and an object are refused with
    one and the same error, whose type name is empty, so that it names
    neither kind. *)
Theorem UnmarshalJSON_unsupported_kind (i : Int8) :
  UnmarshalJSON (bytes "true") i =
    ({| Int8v := 0; Valid := false |}, Some (errUnsupported (bytes "bool"))) /\
  UnmarshalJSON (bytes "[]") i =
    ({| Int8v := 0; Valid := false |}, Some (errUnsupported [])) /\
  UnmarshalJSON (bytes "{}") i =
    ({| Int8v := 0; Valid := false |}, Some (errUnsupported [])).
Proof. repeat split; reflexivity. Qed.

(** Every integer above 127 that fits an [int64], written in decimal, is
    refused as an overflow and leaves the receiver as it was. *)
Corollary UnmarshalJSON_above_max (n : Z) (i : Int8) :
  MaxInt8 < n <= MaxInt64 ->
  UnmarshalJSON (strconv.FormatInt n) i = (i, Some (errOverflow n)).
Proof.
  intros Hn.
  rewrite (UnmarshalJSON_candidate _ n None i).
  - apply UnmarshalJSON_store_gt. lia.
  - apply decodes_to_int64_candidate, FormatInt_decodes.
    unfold MinInt64, MaxInt8 in *. lia.
Qed.

(** Every integer below -128 that fits an [int64], written in decimal, is
    accepted and stored truncated. *)
Corollary UnmarshalJSON_decimal_below_min (n : Z) (i : Int8) :
  MinInt64 <= n < MinInt8 ->
  UnmarshalJSON (strconv.FormatInt n) i =
  ({| Int8v := int8 n; Valid := negb (int8 n =? 0) |}, None).
Proof.
  intros Hn.
  rewrite (UnmarshalJSON_candidate _ n None i).
  - rewrite UnmarshalJSON_store_le by (unfold MinInt8, MaxInt8 in *; lia).
    reflexivity.
  - apply decodes_to_int64_candidate, FormatInt_decodes.
    unfold MaxInt64, MinInt8 in *. lia.
Qed.

(** ** Encoding, and the round trip through JSON *)

Lemma bytes_Equal_eq (a b : list byte) : bytes_Equal a b = true -> a = b.
Proof.
  revert b. induction a as [|x a IH]; intros [|y b] H; try discriminate.
  - reflexivity.
  - cbn [bytes_Equal] in H. apply andb_prop in H as [Hxy Hab].
    apply Byte.byte_dec_bl in Hxy. subst y. f_equal. apply IH, Hab.
Qed.

(** On an [int8], [strconv.FormatInt] writes the decimal representation. *)
Lemma FormatInt_int8 (v : Z) :
  in_int8 v -> strconv.FormatInt (int64 v) = decimal_ascii v.
Proof.
  intros Hv. apply bytes_Equal_eq.
  apply (int8_forall
           (fun v => bytes_Equal (strconv.FormatInt (int64 v)) (decimal_ascii v)));
    [vm_compute; reflexivity | exact Hv].
Qed.

(** [strconv.ParseInt(s, 10, 8)] reads the decimal representation of an
    [int8] back. *)
Lemma ParseInt_decimal_int8 (v : Z) :
  in_int8 v -> strconv.ParseInt (decimal_ascii v) 8 = (v, None).
Proof.
  intros Hv.
  assert (H : (let '(n, e) := strconv.ParseInt (decimal_ascii v) 8 in
               (n =? v) && is_nil e) = true).
  { apply (int8_forall
             (fun v => let '(n, e) := strconv.ParseInt (decimal_ascii v) 8 in
                       (n =? v) && is_nil e));
      [vm_compute; reflexivity | exact Hv]. }
  destruct (strconv.ParseInt (decimal_ascii v) 8) as [n [e|]].
  - rewrite andb_false_r in H. discriminate.
  - rewrite andb_true_r in H. apply Z.eqb_eq in H. subst n. reflexivity.
Qed.

Lemma decimal_ascii_nonempty (v : Z) : in_int8 v -> decimal_ascii v <> [].
Proof.
  intros Hv E.
  assert (H : negb (bytes_Equal (decimal_ascii v) []) = true).
  { apply (int8_forall (fun v => negb (bytes_Equal (decimal_ascii v) [])));
      [vm_compute; reflexivity | exact Hv]. }
  rewrite E in H. discriminate.
Qed.

(** C8: an invalid [Int8] is encoded as the bytes of [null] in JSON and as
    no bytes in text, whatever value it stores; a valid one is encoded, in
    both, as the decimal ASCII representation of its value, without quotes;
    no encoder ever returns an error. *)
Theorem Marshal_spec (i : Int8) :
  (Valid i = false ->
   MarshalJSON i = (NullBytes, None) /\ MarshalText i = ([], None)) /\
  (Valid i = true -> in_int8 (Int8v i) ->
   MarshalJSON i = (decimal_ascii (Int8v i), None) /\
   MarshalText i = (decimal_ascii (Int8v i), None)) /\
  snd (MarshalJSON i) = None /\ snd (MarshalText i) = None.
Proof.
  unfold MarshalJSON, MarshalText. destruct i as [v [|]]; cbn [Valid Int8v negb].
  - split; [discriminate|]. split; [|split; reflexivity].
    intros _ Hv. rewrite FormatInt_int8 by exact Hv. split; reflexivity.
  - split; [intros _; split; reflexivity|].
    split; [discriminate|split; reflexivity].
Qed.

Lemma Marshal_spec_witness :
  MarshalJSON (NewInt8 5 false) = (NullBytes, None) /\
  MarshalText (NewInt8 5 false) = ([], None) /\
  MarshalJSON (Int8From (-12)) = (bytes "-12", None) /\
  MarshalText (Int8From (-12)) = (bytes "-12", None).
Proof.
  destruct (Marshal_spec (NewInt8 5 false)) as [Hinv _].
  destruct (Marshal_spec (Int8From (-12))) as [_ [Hval _]].
  destruct (Hinv eq_refl) as [H1 H2].
  destruct (Hval eq_refl ltac:(unfold in_int8, MinInt8, MaxInt8; simpl; lia))
    as [H3 H4].
  repeat split; assumption.
Defined.

(** C1: for every [v] from -128 to 127, decoding the JSON encoding of
    [Int8From v] gives [Int8From v] again when [v] is not 0; for [v = 0] the
    decoded [Int8] has [Valid = false] (and value 0, with no error). *)
Theorem json_roundtrip (v : Z) (i : Int8) :
  in_int8 v ->
  (v <> 0 ->
   UnmarshalJSON (fst (MarshalJSON (Int8From v))) i = (Int8From v, None)) /\
  (v = 0 ->
   UnmarshalJSON (fst (MarshalJSON (Int8From v))) i =
   ({| Int8v := 0; Valid := false |}, None)).
Proof.
  intros Hv.
  assert (Hrun : UnmarshalJSON (fst (MarshalJSON (Int8From v))) i =
                 ({| Int8v := v; Valid := negb (v =? 0) |}, None)).
  { unfold MarshalJSON, Int8From, NewInt8. cbn [Valid Int8v negb fst].
    rewrite int64_of_int8 by exact Hv.
    assert (Hd : decodes_to_int64 (strconv.FormatInt v) v = true).
    { apply FormatInt_decodes.
      unfold in_int8, MinInt8, MaxInt8, MinInt64, MaxInt64 in *. lia. }
    rewrite (UnmarshalJSON_candidate _ v None i
               (decodes_to_int64_candidate _ _ Hd)).
    rewrite UnmarshalJSON_store_le by apply Hv.
    rewrite int8_id by exact Hv. reflexivity. }
  rewrite Hrun. split.
  - intros Hnz. destruct (Z.eqb_spec v 0); [contradiction|reflexivity].
  - intros ->. reflexivity.
Qed.

Lemma json_roundtrip_witness :
  UnmarshalJSON (fst (MarshalJSON (Int8From (-128)))) (NewInt8 0 false) =
    (Int8From (-128), None) /\
  UnmarshalJSON (fst (MarshalJSON (Int8From 0))) (Int8From 7) =
    ({| Int8v := 0; Valid := false |}, None).
Proof.
  split.
  - apply (json_roundtrip (-128) (NewInt8 0 false)).
    + unfold in_int8, MinInt8, MaxInt8. lia.
    + lia.
  - apply (json_roundtrip 0 (Int8From 7)).
    + unfold in_int8, MinInt8, MaxInt8. lia.
    + reflexivity.
Defined.

(** ** UnmarshalText *)

(** C7: [UnmarshalText] on nil or empty input sets [Valid] to false, returns
    no error and leaves the value as it was; on a non-empty input that
    [strconv.ParseInt(s, 10, 8)] accepts it stores the parsed integer, an
    [int8], with [Valid = true] and no error, and digits with an optional
    minus sign that stand for an [int8] are such an input; on a parse
    failure it sets [Valid] to false and returns the error of the parse. *)
Theorem UnmarshalText_spec (i : Int8) :
  UnmarshalText None i = ({| Int8v := Int8v i; Valid := false |}, None) /\
  UnmarshalText (Some []) i = ({| Int8v := Int8v i; Valid := false |}, None) /\
  (forall t n, t <> [] -> strconv.ParseInt t 8 = (n, None) ->
     in_int8 n /\
     UnmarshalText (Some t) i = ({| Int8v := n; Valid := true |}, None)) /\
  (forall ds, ds <> [] -> Forall (fun c => is_digit c = true) ds ->
     (dec_value ds 0 <= MaxInt8 ->
      UnmarshalText (Some ds) i = (Int8From (dec_value ds 0), None)) /\
     (dec_value ds 0 <= - MinInt8 ->
      UnmarshalText (Some (bytes "-" ++ ds)) i =
      (Int8From (- dec_value ds 0), None))) /\
  (forall t n e, t <> [] -> strconv.ParseInt t 8 = (n, Some e) ->
     UnmarshalText (Some t) i = ({| Int8v := Int8v i; Valid := false |}, Some e)).
Proof.
  assert (Hok : forall t n, t <> [] -> strconv.ParseInt t 8 = (n, None) ->
     in_int8 n /\
     UnmarshalText (Some t) i = ({| Int8v := n; Valid := true |}, None)).
  { intros t n Hne Hp.
    assert (Hn : in_int8 n).
    { pose proof (ParseInt_8_in_int8 t) as H. rewrite Hp in H. exact H. }
    split; [exact Hn|].
    unfold UnmarshalText. destruct t as [|c t]; [contradiction|].
    cbn [List.length].
    destruct (Z.eqb_spec (Z.of_nat (S (List.length t))) 0); [lia|].
    rewrite Hp. cbn [is_nil]. rewrite int8_id by exact Hn. reflexivity. }
  split; [reflexivity|]. split; [reflexivity|]. split; [exact Hok|]. split.
  - intros ds Hne Hds.
    destruct (ParseInt_8_signed_digits ds Hne Hds) as [Hpos Hneg]. split.
    + intros Hle. destruct (Hpos Hle) as [Hp _]. apply (Hok ds _ Hne Hp).
    + intros Hle. apply (Hok (bytes "-" ++ ds) _); [discriminate|].
      apply Hneg, Hle.
  - intros t n e Hne Hp.
    unfold UnmarshalText. destruct t as [|c t]; [contradiction|].
    cbn [List.length].
    destruct (Z.eqb_spec (Z.of_nat (S (List.length t))) 0); [lia|].
    rewrite Hp. reflexivity.
Qed.

Lemma UnmarshalText_spec_witness :
  UnmarshalText (Some (bytes "42")) (NewInt8 0 false) = (Int8From 42, None) /\
  UnmarshalText (Some (bytes "-128")) (NewInt8 0 false) = (Int8From (-128), None) /\
  UnmarshalText (Some (bytes "abc")) (Int8From 5) =
    ({| Int8v := 5; Valid := false |}, Some (NumError "ParseInt" ErrSyntax)).
Proof.
  destruct (UnmarshalText_spec (NewInt8 0 false)) as [_ [_ [Hok [Hdec _]]]].
  destruct (UnmarshalText_spec (Int8From 5)) as [_ [_ [_ [_ Hfail]]]].
  split; [|split].
  - apply (Hok (bytes "42") 42); [discriminate | vm_compute; reflexivity].
  - apply (Hdec (bytes "128")).
    + discriminate.
    + repeat constructor.
    + vm_compute. discriminate.
  - apply (Hfail (bytes "abc") 0 (NumError "ParseInt" ErrSyntax));
      [discriminate | vm_compute; reflexivity].
Defined.

(** The round trip through text holds for every [int8], 0 included. *)
Lemma text_roundtrip (v : Z) (i : Int8) :
  in_int8 v ->
  UnmarshalText (Some (fst (MarshalText (Int8From v)))) i = (Int8From v, None).
Proof.
  intros Hv. unfold MarshalText, Int8From, NewInt8. cbn [Valid Int8v negb fst].
  rewrite FormatInt_int8 by exact Hv.
  unfold UnmarshalText.
  pose proof (decimal_ascii_nonempty v Hv) as Hne.
  destruct (decimal_ascii v) as [|c t] eqn:E; [contradiction|].
  cbn [List.length].
  destruct (Z.eqb_spec (Z.of_nat (S (List.length t))) 0); [lia|].
  rewrite <- E, ParseInt_decimal_int8 by exact Hv.
  cbn [is_nil]. rewrite int8_id by exact Hv. reflexivity.
Qed.

(** ** Scan and Value *)

Section ScanProperties.

Variable src : Type.
Variable ConvertAssign : Z -> src -> Z * option error.

(** C9: [Scan(nil)] stores 0 with [Valid = false] and returns no error;
    [Value] of an invalid [Int8] is the nil driver value, [Value] of a valid
    one is its value as an [int64], and [Value] never returns an error. *)
Theorem Scan_nil_and_Value (i : Int8) :
  Scan ConvertAssign None i = ({| Int8v := 0; Valid := false |}, None) /\
  (Valid i = false -> Value i = (driver_nil, None)) /\
  (Valid i = true -> in_int8 (Int8v i) ->
   Value i = (driver_int64 (Int8v i), None)) /\
  snd (Value i) = None.
Proof.
  unfold Value. destruct i as [v [|]]; cbn [Valid Int8v negb].
  - split; [reflexivity|]. split; [discriminate|]. split; [|reflexivity].
    intros _ Hv. rewrite int64_of_int8 by exact Hv. reflexivity.
  - split; [reflexivity|]. split; [reflexivity|]. split; [discriminate|reflexivity].
Qed.

(** C10: [Scan] of a non-nil driver value leaves [Valid = true] whatever the
    coercion answers; when the coercion fails, [Scan] returns its error and
    the receiver is valid, with the content the coercion left in the
    field. *)
Theorem Scan_failure_keeps_valid (x : src) (i : Int8) :
  Valid (fst (Scan ConvertAssign (Some x) i)) = true /\
  snd (Scan ConvertAssign (Some x) i) = snd (ConvertAssign (Int8v i) x) /\
  (forall n e, ConvertAssign (Int8v i) x = (n, Some e) ->
     Scan ConvertAssign (Some x) i = ({| Int8v := n; Valid := true |}, Some e)).
Proof.
  unfold Scan. destruct (ConvertAssign (Int8v i) x) as [n err].
  split; [reflexivity|]. split; [reflexivity|].
  intros n' e H. inversion H. reflexivity.
Qed.

End ScanProperties.

Lemma Scan_nil_and_Value_witness :
  Scan sample_ConvertAssign None (Int8From 9) =
    ({| Int8v := 0; Valid := false |}, None) /\
  Value (NewInt8 0 false) = (driver_nil, None) /\
  Value (Int8From 9) = (driver_int64 9, None).
Proof.
  destruct (Scan_nil_and_Value Z sample_ConvertAssign (Int8From 9))
    as [Hscan [_ [Hvalid _]]].
  destruct (Scan_nil_and_Value Z sample_ConvertAssign (NewInt8 0 false))
    as [_ [Hinvalid _]].
  split; [exact Hscan|]. split.
  - apply Hinvalid. reflexivity.
  - apply Hvalid; [reflexivity|]. unfold in_int8, MinInt8, MaxInt8. simpl. lia.
Defined.

Lemma Scan_failure_keeps_valid_witness :
  Scan sample_ConvertAssign (Some 300) (NewInt8 0 false) =
  ({| Int8v := 0; Valid := true |},
   Some (ConvertError (bytes "value out of range"))).
Proof.
  destruct (Scan_failure_keeps_valid Z sample_ConvertAssign 300 (NewInt8 0 false))
    as [_ [_ Hfail]].
  apply Hfail. vm_compute. reflexivity.
Defined.

(** ** The invariant of the data model *)

Lemma UnmarshalJSON_leaves_value (data : list byte) (i : Int8) :
  leaves_value data = true ->
  UnmarshalJSON data i = ({| Int8v := Int8v i; Valid := false |}, None).
Proof.
  unfold leaves_value, UnmarshalJSON. intros H.
  apply andb_prop in H as [Hnull Hv]. apply negb_true_iff in Hnull.
  rewrite Hnull.
  destruct (json.Unmarshal_interface data) as [[| | | [|c str] | |]|];
    try discriminate; reflexivity.
Qed.

Lemma UnmarshalJSON_store_ok (r : Z) (err : option error) (i i' : Int8) :
  UnmarshalJSON_store r err i = (i', None) -> zero_when_invalid i'.
Proof.
  unfold UnmarshalJSON_store, zero_when_invalid.
  destruct (MaxInt8 <? r); [discriminate|].
  intros H. inversion H. subst. cbn [Valid Int8v is_nil andb].
  intros Hz. apply negb_false_iff in Hz. apply Z.eqb_eq in Hz. exact Hz.
Qed.

(** A successful [UnmarshalJSON] that does not leave the value as it was
    makes the state valid or stores 0. *)
Lemma UnmarshalJSON_ok_zero_when_invalid (data : list byte) (i i' : Int8) :
  leaves_value data = false ->
  UnmarshalJSON data i = (i', None) ->
  zero_when_invalid i'.
Proof.
  unfold leaves_value, UnmarshalJSON. intros Hl H.
  destruct (bytes_Equal data NullBytes).
  { inversion H. intros _. reflexivity. }
  cbn [negb andb] in Hl.
  destruct (json.Unmarshal_interface data) as [[| b | lit | str | |]|];
    try discriminate.
  - destruct (json.Unmarshal_int64 data 0) as [r err].
    eapply UnmarshalJSON_store_ok, H.
  - destruct str as [|c str]; [discriminate|].
    cbn [List.length] in H.
    destruct (Z.eqb_spec (Z.of_nat (S (List.length str))) 0); [lia|].
    destruct (strconv.ParseInt (c :: str) 8) as [r err].
    eapply UnmarshalJSON_store_ok, H.
Qed.

Section Invariant.

Variable src : Type.
Variable ConvertAssign : Z -> src -> Z * option error.

(** C2, amended: a state has value 0 whenever it is invalid if it was built
    by [Int8From], [Int8FromPtr], [NewInt8] with a valid flag or the value 0,
    [SetValid], [Scan], [Randomize], a successful [UnmarshalText] of a
    non-empty text, or a successful [UnmarshalJSON] through the null literal,
    the number branch or the non-empty string branch.  [NewInt8] validates
    nothing: with the flag false it stores the value it is given. *)
Theorem reachable_zero_when_invalid :
  (forall i, reachable ConvertAssign i -> zero_when_invalid i) /\
  (forall v, Int8v (NewInt8 v false) = v /\ Valid (NewInt8 v false) = false).
Proof.
  split.
  - intros i Hr. induction Hr as
      [v valid Hv | v | p | data i i' _ _ Hl Hrun | t i i' _ _ Hne Hrun
      | n i _ _ | value i _ _ | nextInt fieldType shouldBeNull i _ _].
    + intros Hf. apply Hv, Hf.
    + discriminate.
    + destruct p; [discriminate|intros _; reflexivity].
    + exact (UnmarshalJSON_ok_zero_when_invalid data i i' Hl Hrun).
    + unfold UnmarshalText in Hrun. destruct t as [|c t]; [contradiction|].
      cbn [List.length] in Hrun.
      destruct (Z.eqb_spec (Z.of_nat (S (List.length t))) 0); [lia|].
      destruct (strconv.ParseInt (c :: t) 8) as [res [e|]];
        inversion Hrun. discriminate.
    + discriminate.
    + unfold Scan. destruct value as [x|].
      * destruct (ConvertAssign (Int8v i) x). discriminate.
      * intros _. reflexivity.
    + unfold Randomize. destruct shouldBeNull; [intros _; reflexivity|discriminate].
  - intros v. split; reflexivity.
Qed.

End Invariant.

(** C2, counterexample: two states with [Valid = false] and the value 5,
    one built by [NewInt8], one left by decoding the empty JSON string into
    a valid [Int8]. *)
Lemma invalid_with_nonzero_value :
  ~ zero_when_invalid (NewInt8 5 false) /\
  UnmarshalJSON empty_JSON_string (Int8From 5) =
    ({| Int8v := 5; Valid := false |}, None) /\
  ~ zero_when_invalid (fst (UnmarshalJSON empty_JSON_string (Int8From 5))).
Proof.
  split; [|split].
  - intros H. specialize (H eq_refl). discriminate H.
  - reflexivity.
  - intros H. specialize (H eq_refl). discriminate H.
Qed.

Lemma not_always_zero_when_invalid : ~ always_zero_when_invalid.
Proof.
  intros [Hnew _]. specialize (Hnew 5 false eq_refl). discriminate Hnew.
Qed.

Lemma reachable_zero_when_invalid_witness :
  zero_when_invalid
    (fst (UnmarshalJSON (bytes "0")
            (fst (Scan sample_ConvertAssign (Some 7) (Int8FromPtr None))))).
Proof.
  destruct (reachable_zero_when_invalid Z sample_ConvertAssign) as [Hinv _].
  apply Hinv.
  apply (reach_UnmarshalJSON Z sample_ConvertAssign (bytes "0")
           (fst (Scan sample_ConvertAssign (Some 7) (Int8FromPtr None)))).
  - apply reach_Scan, reach_Int8FromPtr.
  - vm_compute. reflexivity.
  - vm_compute. reflexivity.
Defined.

(** * Further properties of the methods *)

(** ** The shapes of a JSON decode *)

Lemma int8_in_int8 (z : Z) : in_int8 (int8 z).
Proof.
  unfold in_int8, MinInt8, MaxInt8, int8, wrap_signed.
  change (2 ^ (8 - 1)) with 128. change (2 ^ 8) with 256.
  pose proof (Z.mod_pos_bound (z + 128) 256). lia.
Qed.

(** Every run of [UnmarshalJSON] ends in one of four ways: the null literal
    stores 0; an error of [json.Unmarshal] or the overflow error leaves the
    receiver as it was; the number, string and default branches store the
    truncation of the candidate; the empty string and the dynamic nil clear
    [Valid] only. *)
Lemma UnmarshalJSON_cases (data : list byte) (i : Int8) :
  UnmarshalJSON data i = ({| Int8v := 0; Valid := false |}, None) \/
  (exists e, UnmarshalJSON data i = (i, Some e)) \/
  (exists r err,
     UnmarshalJSON data i =
     ({| Int8v := int8 r; Valid := is_nil err && negb (int8 r =? 0) |}, err)) \/
  UnmarshalJSON data i = ({| Int8v := Int8v i; Valid := false |}, None).
Proof.
  assert (Hstore : forall r err,
    (exists e, UnmarshalJSON_store r err i = (i, Some e)) \/
    (exists r' err',
       UnmarshalJSON_store r err i =
       ({| Int8v := int8 r'; Valid := is_nil err' && negb (int8 r' =? 0) |}, err'))).
  { intros r err. unfold UnmarshalJSON_store.
    destruct (MaxInt8 <? r); [left; eexists; reflexivity|].
    right. exists r, err. reflexivity. }
  unfold UnmarshalJSON.
  destruct (bytes_Equal data NullBytes); [left; reflexivity|].
  destruct (json.Unmarshal_interface data) as [v|e];
    [|right; left; exists e; reflexivity].
  destruct v as [| b | lit | str | |].
  - right; right; right. reflexivity.
  - right. destruct (Hstore 0 (Some (errUnsupported (reflect_TypeOf_Name (json.Bool b)))))
      as [H|H]; [left|right; left]; exact H.
  - destruct (json.Unmarshal_int64 data 0) as [r err].
    right. destruct (Hstore r err) as [H|H]; [left|right; left]; exact H.
  - destruct (Z.of_nat (List.length str) =? 0); [right; right; right; reflexivity|].
    destruct (strconv.ParseInt str 8) as [r err].
    right. destruct (Hstore r err) as [H|H]; [left|right; left]; exact H.
  - right. destruct (Hstore 0 (Some (errUnsupported (reflect_TypeOf_Name json.Slice))))
      as [H|H]; [left|right; left]; exact H.
  - right. destruct (Hstore 0 (Some (errUnsupported (reflect_TypeOf_Name json.Map))))
      as [H|H]; [left|right; left]; exact H.
Qed.

(** X1: a JSON decode that returns no error never leaves a valid 0: when the
    result is valid, its value is an [int8] other than 0. *)
Theorem UnmarshalJSON_ok_valid_nonzero (data : list byte) (i i' : Int8) :
  UnmarshalJSON data i = (i', None) ->
  Valid i' = true ->
  Int8v i' <> 0 /\ in_int8 (Int8v i').
Proof.
  intros Hrun Hvalid.
  destruct (UnmarshalJSON_cases data i) as [H | [[e H] | [(r & err & H) | H]]];
    rewrite H in Hrun; inversion Hrun; subst; cbn [Valid Int8v] in *;
    try discriminate.
  cbn [is_nil andb] in Hvalid. apply negb_true_iff, Z.eqb_neq in Hvalid.
  split; [exact Hvalid | apply int8_in_int8].
Qed.

Lemma UnmarshalJSON_ok_valid_nonzero_witness :
  Int8v (Int8From 7) <> 0 /\ in_int8 (Int8v (Int8From 7)).
Proof.
  apply (UnmarshalJSON_ok_valid_nonzero (bytes " 7 ") (NewInt8 0 false) (Int8From 7)).
  - vm_compute. reflexivity.
  - reflexivity.
Defined.

(** X2: a JSON decode that returns an error never produces a new valid
    state: the receiver is as it was, or it is invalid. *)
Theorem UnmarshalJSON_error_unchanged_or_invalid (data : list byte)
    (i i' : Int8) (e : error) :
  UnmarshalJSON data i = (i', Some e) ->
  i' = i \/ Valid i' = false.
Proof.
  intros Hrun.
  destruct (UnmarshalJSON_cases data i) as [H | [[e' H] | [(r & err & H) | H]]];
    rewrite H in Hrun; inversion Hrun; subst; cbn [Valid];
    [left; reflexivity | right; reflexivity].
Qed.

Lemma UnmarshalJSON_error_unchanged_or_invalid_witness :
  Int8From 5 = Int8From 5 \/ Valid (Int8From 5) = false.
Proof.
  apply (UnmarshalJSON_error_unchanged_or_invalid
           (bytes "[1,") (Int8From 5) (Int8From 5) JSONSyntaxError).
  vm_compute. reflexivity.
Defined.

(** X3: the decoders and [Randomize] keep the field within the range of an
    [int8]; [Scan] does so when the coercion does. *)
Theorem methods_keep_int8 (i : Int8) :
  in_int8 (Int8v i) ->
  (forall data, in_int8 (Int8v (fst (UnmarshalJSON data i)))) /\
  (forall text, in_int8 (Int8v (fst (UnmarshalText text i)))) /\
  (forall nextInt fieldType shouldBeNull,
     in_int8 (Int8v (Randomize nextInt fieldType shouldBeNull i))) /\
  (forall (src : Type) (ConvertAssign : Z -> src -> Z * option error) value,
     (forall dest x, in_int8 dest -> in_int8 (fst (ConvertAssign dest x))) ->
     in_int8 (Int8v (fst (Scan ConvertAssign value i)))).
Proof.
  intros Hi.
  assert (H0 : in_int8 0) by (unfold in_int8, MinInt8, MaxInt8; lia).
  split; [|split; [|split]].
  - intros data.
    destruct (UnmarshalJSON_cases data i) as [H | [[e H] | [(r & err & H) | H]]];
      rewrite H; cbn [fst Int8v]; auto using int8_in_int8.
  - intros text. unfold UnmarshalText.
    destruct text as [t|]; [|exact Hi].
    destruct (Z.of_nat (List.length t) =? 0); [exact Hi|].
    destruct (strconv.ParseInt t 8) as [res err].
    destruct (is_nil err); cbn [fst Int8v]; auto using int8_in_int8.
  - intros nextInt fieldType shouldBeNull. unfold Randomize.
    destruct shouldBeNull; cbn [Int8v]; auto using int8_in_int8.
  - intros src ConvertAssign value Hca. unfold Scan.
    destruct value as [x|]; [|exact H0].
    specialize (Hca (Int8v i) x Hi).
    destruct (ConvertAssign (Int8v i) x) as [n err]. exact Hca.
Qed.

Lemma methods_keep_int8_witness :
  in_int8 (Int8v (fst (UnmarshalJSON (bytes "-129") (Int8From 5)))) /\
  in_int8 (Int8v (fst (Scan sample_ConvertAssign (Some 300) (Int8From 5)))).
Proof.
  assert (H5 : in_int8 (Int8v (Int8From 5)))
    by (unfold in_int8, MinInt8, MaxInt8; simpl; lia).
  destruct (methods_keep_int8 (Int8From 5) H5) as [Hjson [_ [_ Hscan]]].
  split; [apply Hjson|].
  apply (Hscan Z sample_ConvertAssign (Some 300)).
  intros dest x Hd. unfold sample_ConvertAssign.
  destruct (Z.leb_spec MinInt8 x); destruct (Z.leb_spec x MaxInt8);
    cbn [andb fst]; try exact Hd.
  split; assumption.
Defined.

(** ** Pointers, emptiness and random values *)

(** X4: [Ptr] undoes [Int8FromPtr]; [Int8FromPtr] undoes [Ptr] exactly on
    the states that hold 0 when invalid, because an invalid state comes back
    with the value 0. *)
Theorem Ptr_Int8FromPtr (p : option Z) (i : Int8) :
  Ptr (Int8FromPtr p) = p /\
  (Int8FromPtr (Ptr i) = i <-> zero_when_invalid i) /\
  zero_when_invalid (Int8FromPtr (Ptr i)).
Proof.
  split; [destruct p; reflexivity|].
  destruct i as [v [|]]; unfold Ptr, Int8FromPtr, NewInt8, zero_when_invalid;
    cbn [Valid Int8v negb].
  - split; [|discriminate]. split; [discriminate|reflexivity].
  - split; [|reflexivity]. split.
    + intros H _. inversion H. reflexivity.
    + intros H. rewrite (H eq_refl). reflexivity.
Qed.

(** X5: [Randomize] without [shouldBeNull] makes the state valid with the
    truncated remainder of [nextInt] by 127, a value from -126 to 126: it
    never draws 127, -127 or -128.  With [shouldBeNull] it stores 0 and
    clears [Valid]. *)
Theorem Randomize_range (nextInt : Z) (fieldType : list byte) (i : Int8) :
  Randomize nextInt fieldType true i = {| Int8v := 0; Valid := false |} /\
  Valid (Randomize nextInt fieldType false i) = true /\
  Int8v (Randomize nextInt fieldType false i) = Z.rem nextInt 127 /\
  -126 <= Int8v (Randomize nextInt fieldType false i) <= 126.
Proof.
  unfold Randomize, MaxInt8. cbn [Valid Int8v].
  pose proof (Z.rem_bound_abs nextInt 127 ltac:(lia)) as Hb.
  assert (Hr : -126 <= Z.rem nextInt 127 <= 126) by lia.
  rewrite int8_id by (unfold in_int8, MinInt8, MaxInt8; lia).
  repeat split; try reflexivity; lia.
Qed.

Lemma FormatInt_not_null_nor_empty (n : Z) :
  MinInt64 <= n <= MaxInt64 ->
  strconv.FormatInt n <> NullBytes /\ strconv.FormatInt n <> [].
Proof.
  intros Hn. pose proof (FormatInt_decodes n Hn) as Hd. split; intros E;
    rewrite E in Hd; vm_compute in Hd; discriminate.
Qed.

(** X6: the encodings tell a valid state from an invalid one: on a state
    whose value is an [int8], [MarshalJSON] gives the bytes of [null] exactly
    when the state is invalid, [MarshalText] gives no bytes exactly then,
    and then only [IsZero] holds, [Ptr] is nil and [Value] is nil. *)
Theorem absent_iff_invalid (i : Int8) :
  in_int8 (Int8v i) ->
  (fst (MarshalJSON i) = NullBytes <-> Valid i = false) /\
  (fst (MarshalText i) = [] <-> Valid i = false) /\
  (IsZero i = true <-> Valid i = false) /\
  (Ptr i = None <-> Valid i = false) /\
  (fst (Value i) = driver_nil <-> Valid i = false).
Proof.
  intros Hv.
  assert (H64 : MinInt64 <= int64 (Int8v i) <= MaxInt64).
  { rewrite int64_of_int8 by exact Hv.
    unfold in_int8, MinInt8, MaxInt8, MinInt64, MaxInt64 in *. lia. }
  destruct (FormatInt_not_null_nor_empty _ H64) as [Hnull Hempty].
  unfold MarshalJSON, MarshalText, IsZero, Ptr, Value.
  destruct i as [v [|]]; cbn [Valid Int8v negb fst] in *;
    repeat split; intros H; try reflexivity; try discriminate;
    contradiction.
Qed.

Lemma absent_iff_invalid_witness :
  fst (MarshalJSON (NewInt8 5 false)) = NullBytes /\
  fst (MarshalText (Int8From 0)) <> [].
Proof.
  assert (H5 : in_int8 5) by (unfold in_int8, MinInt8, MaxInt8; lia).
  assert (H0 : in_int8 0) by (unfold in_int8, MinInt8, MaxInt8; lia).
  destruct (absent_iff_invalid (NewInt8 5 false) H5) as [[_ Hj] _].
  destruct (absent_iff_invalid (Int8From 0) H0) as [_ [[Ht _] _]].
  split; [apply Hj; reflexivity|].
  intros E. apply Ht in E. discriminate E.
Defined.

(** ** Round trips of any state *)

(** X7: [UnmarshalJSON] accepts whatever [MarshalJSON] writes, without an
    error and whatever the receiver holds: a valid state with a value other
    than 0 comes back as it was, every other state, an invalid one with a
    stale value included, comes back as 0 and invalid. *)
Theorem json_roundtrip_any_state (i j : Int8) :
  in_int8 (Int8v i) ->
  UnmarshalJSON (fst (MarshalJSON i)) j =
  ((if Valid i && negb (Int8v i =? 0) then i
    else {| Int8v := 0; Valid := false |}), None).
Proof.
  intros Hv. unfold MarshalJSON.
  destruct i as [v [|]]; cbn [Valid Int8v negb fst andb] in *; [|reflexivity].
  rewrite int64_of_int8 by exact Hv.
  assert (Hd : decodes_to_int64 (strconv.FormatInt v) v = true).
  { apply FormatInt_decodes.
    unfold in_int8, MinInt8, MaxInt8, MinInt64, MaxInt64 in *. lia. }
  rewrite (UnmarshalJSON_candidate _ v None j
             (decodes_to_int64_candidate _ _ Hd)).
  rewrite UnmarshalJSON_store_le by apply Hv.
  rewrite int8_id by exact Hv. cbn [is_nil andb].
  destruct (Z.eqb_spec v 0) as [-> | Hnz]; reflexivity.
Qed.

Lemma json_roundtrip_any_state_witness :
  UnmarshalJSON (fst (MarshalJSON (NewInt8 5 false))) (Int8From 9) =
  ({| Int8v := 0; Valid := false |}, None).
Proof.
  apply (json_roundtrip_any_state (NewInt8 5 false) (Int8From 9)).
  unfold in_int8, MinInt8, MaxInt8. simpl. lia.
Defined.

(** X8: [UnmarshalText] accepts whatever [MarshalText] writes without an
    error: a valid state comes back as it was, 0 included; for an invalid
    state the receiver becomes invalid and keeps its own value. *)
Theorem text_roundtrip_any_state (i j : Int8) :
  in_int8 (Int8v i) ->
  UnmarshalText (Some (fst (MarshalText i))) j =
  ((if Valid i then i else {| Int8v := Int8v j; Valid := false |}), None).
Proof.
  intros Hv. unfold MarshalText.
  destruct i as [v [|]]; cbn [Valid Int8v negb fst] in *; [|reflexivity].
  rewrite FormatInt_int8 by exact Hv.
  unfold UnmarshalText.
  pose proof (decimal_ascii_nonempty v Hv) as Hne.
  destruct (decimal_ascii v) as [|c t] eqn:E; [contradiction|].
  cbn [List.length].
  destruct (Z.eqb_spec (Z.of_nat (S (List.length t))) 0); [lia|].
  rewrite <- E, ParseInt_decimal_int8 by exact Hv.
  cbn [is_nil]. rewrite int8_id by exact Hv. reflexivity.
Qed.

Lemma text_roundtrip_any_state_witness :
  UnmarshalText (Some (fst (MarshalText (Int8From 0)))) (NewInt8 5 false) =
    (Int8From 0, None) /\
  UnmarshalText (Some (fst (MarshalText (NewInt8 5 false)))) (Int8From 9) =
    ({| Int8v := 9; Valid := false |}, None).
Proof.
  split.
  - apply (text_roundtrip_any_state (Int8From 0) (NewInt8 5 false)).
    unfold in_int8, MinInt8, MaxInt8. simpl. lia.
  - apply (text_roundtrip_any_state (NewInt8 5 false) (Int8From 9)).
    unfold in_int8, MinInt8, MaxInt8. simpl. lia.
Defined.

(** ** Numbers out of range, as text and as a JSON string *)

(** Where the digits stand for more than [maxVal], the loop of [ParseUint]
    stops with a range error and [maxVal]. *)
Lemma ParseUint_loop_overflow (maxVal : Z) (ds : list byte) :
  0 <= maxVal <= maxUint64 ->
  Forall (fun c => is_digit c = true) ds ->
  forall n, 0 <= n <= maxVal -> maxVal < dec_value ds n ->
  strconv.ParseUint_loop maxVal ds n = (maxVal, Some ErrRange).
Proof.
  intros Hmax. induction 1 as [|c ds Hc Hds IH]; intros n Hn Hgt.
  - cbn in Hgt. lia.
  - rewrite dec_value_cons in Hgt. cbn [strconv.ParseUint_loop]. rewrite Hc.
    pose proof (proj1 (is_digit_range c) Hc) as Hr.
    unfold maxUint64 in *.
    change (2 ^ 64 - 1) with 18446744073709551615 in *.
    change (18446744073709551615 / 10 + 1) with 1844674407370955162.
    destruct (Z.leb_spec 1844674407370955162 n); [reflexivity|].
    unfold uint64. change (2 ^ 64) with 18446744073709551616.
    destruct (Z.lt_ge_cases (n * 10 + (byte_val c - 48)) 18446744073709551616)
      as [Hsmall | Hbig].
    + rewrite Z.mod_small by lia.
      destruct (Z.ltb_spec (n * 10 + (byte_val c - 48)) (n * 10)); [lia|].
      destruct (Z.ltb_spec maxVal (n * 10 + (byte_val c - 48)));
        [reflexivity|].
      cbn [orb]. apply IH; [lia | exact Hgt].
    + replace ((n * 10 + (byte_val c - 48)) mod 18446744073709551616)
        with (n * 10 + (byte_val c - 48) - 18446744073709551616).
      * destruct (Z.ltb_spec (n * 10 + (byte_val c - 48) - 18446744073709551616)
                             (n * 10)); [reflexivity|lia].
      * replace (n * 10 + (byte_val c - 48))
          with (n * 10 + (byte_val c - 48) - 18446744073709551616
                + 1 * 18446744073709551616) at 2 by lia.
        rewrite Z.mod_add by lia. symmetry. apply Z.mod_small. lia.
Qed.

(** [strconv.ParseInt(s, 10, 8)] on digits that stand for a number outside
    an [int8]: a range error, with the nearest bound. *)
Lemma ParseInt_8_out_of_range (ds : list byte) :
  ds <> [] -> Forall (fun c => is_digit c = true) ds ->
  (MaxInt8 < dec_value ds 0 ->
   strconv.ParseInt ds 8 = (MaxInt8, Some (NumError "ParseInt" ErrRange))) /\
  (- MinInt8 < dec_value ds 0 ->
   strconv.ParseInt (bytes "-" ++ ds) 8 =
   (MinInt8, Some (NumError "ParseInt" ErrRange))).
Proof.
  intros Hne Hds. unfold MaxInt8, MinInt8. change (- -128) with 128.
  assert (Hu : 127 < dec_value ds 0 ->
               exists un e, strconv.ParseUint ds 8 = (un, e) /\ 127 < un /\
                            e <> Some ErrSyntax).
  { intros Hgt. unfold strconv.ParseUint.
    destruct ds as [|c rest] eqn:E; [contradiction|]. rewrite <- E in *.
    change (uint64 (uint64 (2 ^ 8) - 1)) with 255.
    destruct (Z.le_gt_cases (dec_value ds 0) 255) as [Hle | Hbig].
    - exists (dec_value ds 0), None.
      rewrite ParseUint_loop_digits; try assumption; try lia.
      + split; [reflexivity | split; [lia | discriminate]].
      + unfold maxUint64. change (2 ^ 64 - 1) with 18446744073709551615. lia.
    - exists 255, (Some ErrRange).
      rewrite ParseUint_loop_overflow; try assumption; try lia.
      + split; [reflexivity | split; [lia | discriminate]].
      + unfold maxUint64. change (2 ^ 64 - 1) with 18446744073709551615. lia. }
  split.
  - intros Hgt. destruct (Hu Hgt) as (un & e & Hp & Hun & He).
    destruct ds as [|c rest]; [contradiction|].
    assert (Hsign : is_byte c "+" = false /\ is_byte c "-" = false).
    { inversion Hds as [|? ? Hc _]. apply is_digit_cases in Hc. cbn in Hc.
      repeat (destruct Hc as [<- | Hc]; [split; reflexivity|]). contradiction. }
    destruct Hsign as [Hplus Hminus].
    unfold strconv.ParseInt. rewrite Hplus, Hminus, Hp.
    change (2 ^ (8 - 1)) with 128. cbn [negb andb].
    destruct (Z.leb_spec 128 un); [|lia].
    destruct e as [[|]|]; [contradiction He; reflexivity | reflexivity | reflexivity].
  - intros Hgt. destruct (Hu ltac:(lia)) as (un & e & Hp & Hun & He).
    assert (Hun' : 128 < un).
    { unfold strconv.ParseUint in Hp.
      destruct ds as [|c rest] eqn:E; [contradiction|]. rewrite <- E in *.
      change (uint64 (uint64 (2 ^ 8) - 1)) with 255 in Hp.
      destruct (Z.le_gt_cases (dec_value ds 0) 255) as [Hle | Hbig].
      - rewrite ParseUint_loop_digits in Hp; try assumption; try lia.
        + inversion Hp. lia.
        + unfold maxUint64. change (2 ^ 64 - 1) with 18446744073709551615. lia.
      - rewrite ParseUint_loop_overflow in Hp; try assumption; try lia.
        + inversion Hp. lia.
        + unfold maxUint64. change (2 ^ 64 - 1) with 18446744073709551615. lia. }
    change (bytes "-" ++ ds) with (x2d :: ds). unfold strconv.ParseInt.
    change (is_byte x2d "+") with false. change (is_byte x2d "-") with true.
    cbn iota beta. rewrite Hp.
    change (2 ^ (8 - 1)) with 128. cbn [negb andb].
    destruct (Z.ltb_spec 128 un); [|lia].
    destruct e as [[|]|]; [contradiction He; reflexivity | reflexivity | reflexivity].
Qed.

(** X9: [UnmarshalText] on digits, with or without a minus sign, that stand
    for a number outside an [int8] returns the range error of the parse,
    clears [Valid] and keeps the value the receiver had: the bound that the
    parse returns is not stored. *)
Theorem UnmarshalText_out_of_range (ds : list byte) (i : Int8) :
  ds <> [] -> Forall (fun c => is_digit c = true) ds ->
  (MaxInt8 < dec_value ds 0 ->
   UnmarshalText (Some ds) i =
   ({| Int8v := Int8v i; Valid := false |},
    Some (NumError "ParseInt" ErrRange))) /\
  (- MinInt8 < dec_value ds 0 ->
   UnmarshalText (Some (bytes "-" ++ ds)) i =
   ({| Int8v := Int8v i; Valid := false |},
    Some (NumError "ParseInt" ErrRange))).
Proof.
  intros Hne Hds. destruct (ParseInt_8_out_of_range ds Hne Hds) as [Hpos Hneg].
  split; intros Hgt; unfold UnmarshalText.
  - destruct ds as [|c t] eqn:E; [contradiction|]. rewrite <- E in *.
    replace (Z.of_nat (List.length ds) =? 0) with false
      by (rewrite E; cbn [List.length]; symmetry; apply Z.eqb_neq; lia).
    rewrite (Hpos Hgt). reflexivity.
  - change (bytes "-" ++ ds) with (x2d :: ds) in *. cbn [List.length].
    replace (Z.of_nat (S (List.length ds)) =? 0) with false
      by (symmetry; apply Z.eqb_neq; lia).
    rewrite (Hneg Hgt). reflexivity.
Qed.

Lemma UnmarshalText_out_of_range_witness :
  UnmarshalText (Some (bytes "128")) (Int8From 5) =
    ({| Int8v := 5; Valid := false |}, Some (NumError "ParseInt" ErrRange)) /\
  UnmarshalText (Some (bytes "-300")) (Int8From 5) =
    ({| Int8v := 5; Valid := false |}, Some (NumError "ParseInt" ErrRange)).
Proof.
  split.
  - apply (UnmarshalText_out_of_range (bytes "128") (Int8From 5)).
    + discriminate.
    + repeat constructor.
    + vm_compute. reflexivity.
  - apply (UnmarshalText_out_of_range (bytes "300") (Int8From 5)).
    + discriminate.
    + repeat constructor.
    + vm_compute. reflexivity.
Defined.

(** ** JSON strings of plain text *)


Lemma is_digit_plain (c : byte) : is_digit c = true -> plain_ascii c = true.
Proof.
  intros H. apply is_digit_cases in H. cbn in H.
  repeat (destruct H as [<- | H]; [reflexivity|]). contradiction.
Qed.

Lemma scan_bytes_app (s : json.scanner) (a b : list byte) :
  json.scan_bytes s (a ++ b) =
  match json.scan_bytes s a with
  | Some s' => json.scan_bytes s' b
  | None => None
  end.
Proof.
  revert s. induction a as [|c a IH]; intros s; cbn [app json.scan_bytes].
  - reflexivity.
  - destruct (json.scan_step s c); [apply IH | reflexivity].
Qed.









(** ** White space around a JSON input *)

Lemma isSpace_cases (c : byte) :
  json.isSpace c = true -> In c [x20; x09; x0d; x0a].
Proof.
  unfold json.isSpace. intros H.
  apply andb_prop in H as [_ H].
  rewrite !orb_true_iff, !Z.eqb_eq in H.
  rewrite <- (byte_of_val c).
  destruct H as [[[-> | ->] | ->] | ->]; cbn; tauto.
Qed.

(** A space never changes whether the input read so far is a complete
    top-level value: after it the scanner is at the end of the top level when
    the value was complete, and is as incomplete as before (or has failed)
    when it was not. *)
Lemma scan_step_space (s : json.scanner) (c : byte) :
  json.isSpace c = true ->
  match json.scan_step s c with
  | Some s' => json.eof s' = json.eof s /\
               (json.eof s = true -> json.endTop s' = true)
  | None => json.eof s = false
  end.
Proof.
  intros Hc. apply isSpace_cases in Hc. cbn in Hc.
  destruct s as [st ps].
  destruct Hc as [<- | [<- | [<- | [<- | []]]]];
    destruct st; destruct ps as [|[| |] rest];
    cbv; try (split; [reflexivity | try reflexivity; try discriminate]);
    reflexivity.
Qed.

Lemma scan_bytes_spaces (sp : list byte) :
  spaces sp ->
  forall s,
  match json.scan_bytes s sp with
  | Some s' => json.eof s' = json.eof s
  | None => json.eof s = false
  end.
Proof.
  induction 1 as [|c sp Hc _ IH]; intros s; cbn [json.scan_bytes].
  - reflexivity.
  - pose proof (scan_step_space s c Hc) as Hstep.
    destruct (json.scan_step s c) as [s'|]; [|exact Hstep].
    destruct Hstep as [Heof _]. specialize (IH s').
    destruct (json.scan_bytes s' sp); congruence.
Qed.

Lemma scan_bytes_reset_spaces (sp rest : list byte) :
  spaces sp ->
  json.scan_bytes json.reset (sp ++ rest) = json.scan_bytes json.reset rest.
Proof.
  induction 1 as [|c sp Hc _ IH]; cbn [app json.scan_bytes]; [reflexivity|].
  apply isSpace_cases in Hc. cbn in Hc.
  destruct Hc as [<- | [<- | [<- | [<- | []]]]]; exact IH.
Qed.

Lemma checkValid_padded (sp data sp' : list byte) :
  spaces sp -> spaces sp' ->
  json.checkValid (sp ++ data ++ sp') = json.checkValid data.
Proof.
  intros Hsp Hsp'. unfold json.checkValid.
  rewrite scan_bytes_reset_spaces by exact Hsp. rewrite scan_bytes_app.
  destruct (json.scan_bytes json.reset data) as [s|]; [|reflexivity].
  pose proof (scan_bytes_spaces sp' Hsp' s) as H.
  destruct (json.scan_bytes s sp'); [exact H | symmetry; exact H].
Qed.

Lemma literals_from_reset_spaces (sp rest : list byte) :
  spaces sp ->
  json.literals_from json.reset [] (sp ++ rest) =
  json.literals_from json.reset [] rest.
Proof.
  induction 1 as [|c sp Hc _ IH]; cbn [app json.literals_from]; [reflexivity|].
  apply isSpace_cases in Hc. cbn in Hc.
  destruct Hc as [<- | [<- | [<- | [<- | []]]]]; exact IH.
Qed.

Lemma endTop_not_in_number (s : json.scanner) :
  json.endTop s = true -> json.in_number (json.step s) = false.
Proof. unfold json.endTop. destruct (json.step s); try discriminate; reflexivity. Qed.

Lemma endTop_eof (s : json.scanner) : json.endTop s = true -> json.eof s = true.
Proof. unfold json.eof. intros ->. reflexivity. Qed.

(** After a complete value, spaces add no number literal. *)
Lemma literals_from_spaces (sp : list byte) :
  spaces sp ->
  forall s cur, json.eof s = true ->
  json.literals_from s cur sp =
  if json.in_number (json.step s) then [rev cur] else [].
Proof.
  induction 1 as [|c sp Hc _ IH]; intros s cur Heof; cbn [json.literals_from].
  - reflexivity.
  - pose proof (scan_step_space s c Hc) as Hstep.
    destruct (json.scan_step s c) as [s'|]; [|congruence].
    destruct Hstep as [_ Htop]. specialize (Htop Heof).
    rewrite (endTop_not_in_number s' Htop).
    rewrite (IH s' [] (endTop_eof s' Htop)), (endTop_not_in_number s' Htop).
    destruct (json.in_number (json.step s)); reflexivity.
Qed.

Lemma literals_from_app_spaces (sp : list byte) :
  spaces sp ->
  forall data s cur,
  (forall s', json.scan_bytes s data = Some s' -> json.eof s' = true) ->
  json.literals_from s cur (data ++ sp) = json.literals_from s cur data.
Proof.
  intros Hsp. induction data as [|c data IH]; intros s cur Hend.
  - cbn [app]. rewrite (literals_from_spaces sp Hsp s cur (Hend s eq_refl)).
    reflexivity.
  - cbn [app json.literals_from]. cbn [json.scan_bytes] in Hend.
    destruct (json.scan_step s c) as [s'|]; [|reflexivity].
    rewrite !(IH s' _ Hend). reflexivity.
Qed.

Lemma number_literals_padded (sp data sp' : list byte) :
  spaces sp -> spaces sp' -> json.checkValid data = true ->
  json.number_literals (sp ++ data ++ sp') = json.number_literals data.
Proof.
  intros Hsp Hsp' Hv. unfold json.number_literals.
  rewrite literals_from_reset_spaces by exact Hsp.
  apply literals_from_app_spaces; [exact Hsp'|].
  intros s' Hs'. unfold json.checkValid in Hv. rewrite Hs' in Hv. exact Hv.
Qed.

Lemma skip_space_spaces (sp rest : list byte) :
  spaces sp -> json.skip_space (sp ++ rest) = json.skip_space rest.
Proof.
  induction 1 as [|c sp Hc _ IH]; cbn [app json.skip_space]; [reflexivity|].
  rewrite Hc. exact IH.
Qed.

Lemma skip_space_app_spaces (l sp : list byte) :
  spaces sp ->
  json.skip_space (l ++ sp) =
  match json.skip_space l with [] => [] | t => t ++ sp end.
Proof.
  intros Hsp. induction l as [|c l IH]; cbn [app json.skip_space].
  - rewrite <- (app_nil_r sp), skip_space_spaces by exact Hsp. reflexivity.
  - destruct (json.isSpace c); [exact IH | reflexivity].
Qed.

Lemma top_level_padded (sp data sp' : list byte) :
  spaces sp -> spaces sp' ->
  json.top_level (sp ++ data ++ sp') = json.top_level data.
Proof.
  intros Hsp Hsp'. unfold json.top_level.
  rewrite skip_space_spaces by exact Hsp.
  rewrite skip_space_app_spaces by exact Hsp'.
  destruct (json.skip_space data) as [|c t]; [reflexivity|].
  rewrite rev_app_distr, skip_space_spaces; [reflexivity|].
  apply Forall_rev, Hsp'.
Qed.

(** [json.Unmarshal] does not see the white space around its input. *)
Lemma Unmarshal_padded (sp data sp' : list byte) (r : Z) :
  spaces sp -> spaces sp' ->
  json.Unmarshal_interface (sp ++ data ++ sp') = json.Unmarshal_interface data /\
  json.Unmarshal_int64 (sp ++ data ++ sp') r = json.Unmarshal_int64 data r.
Proof.
  intros Hsp Hsp'. unfold json.Unmarshal_interface, json.Unmarshal_int64.
  rewrite checkValid_padded, top_level_padded by assumption.
  destruct (json.checkValid data) eqn:Hv; [|split; reflexivity].
  rewrite number_literals_padded by assumption. split; reflexivity.
Qed.

Lemma padded_null (sp data sp' : list byte) :
  spaces sp -> spaces sp' ->
  sp ++ data ++ sp' = NullBytes -> sp = [] /\ sp' = [] /\ data = NullBytes.
Proof.
  intros Hsp Hsp' E.
  destruct sp as [|c sp].
  - cbn [app] in E. split; [reflexivity|].
    revert Hsp' E. destruct sp' as [|x t _] using rev_ind; intros Hsp' E.
    + rewrite app_nil_r in E. split; [reflexivity | exact E].
    + exfalso. apply Forall_app in Hsp' as [_ Hx].
      inversion Hx as [|? ? Hx' _]. subst.
      rewrite app_assoc in E.
      change NullBytes with (bytes "nul" ++ [x6c]) in E.
      apply app_inj_tail in E as [_ ->]. vm_compute in Hx'. discriminate.
  - exfalso. inversion Hsp as [|? ? Hc _]. subst. cbn [app] in E.
    change NullBytes with (x6e :: bytes "ull") in E.
    inversion E. subst c. vm_compute in Hc. discriminate.
Qed.

Lemma bytes_Equal_refl (a : list byte) : bytes_Equal a a = true.
Proof.
  induction a as [|x a IH]; cbn [bytes_Equal]; [reflexivity|].
  rewrite IH, andb_true_r. apply Byte.byte_dec_lb. reflexivity.
Qed.

(** X11: [UnmarshalJSON] does not see JSON white space around its input,
    with one exception.  For an input other than the exact bytes of [null],
    spaces in front of it and behind it change neither the state stored nor
    the error.  The bytes of [null] with a space in front or behind are
    still no error, but they clear [Valid] and keep the value of the
    receiver, where the exact bytes store 0. *)
Theorem UnmarshalJSON_padded (sp data sp' : list byte) (i : Int8) :
  spaces sp -> spaces sp' ->
  (data <> NullBytes ->
   UnmarshalJSON (sp ++ data ++ sp') i = UnmarshalJSON data i) /\
  (data = NullBytes -> sp ++ sp' <> [] ->
   UnmarshalJSON (sp ++ data ++ sp') i =
   ({| Int8v := Int8v i; Valid := false |}, None)).
Proof.
  intros Hsp Hsp'.
  assert (Hpad : sp ++ sp' <> [] \/ data <> NullBytes ->
                 bytes_Equal (sp ++ data ++ sp') NullBytes = false).
  { intros Hor. destruct (bytes_Equal (sp ++ data ++ sp') NullBytes) eqn:E;
      [|reflexivity].
    apply bytes_Equal_eq in E.
    destruct (padded_null sp data sp' Hsp Hsp' E) as (-> & -> & ->).
    destruct Hor as [H | H]; contradiction H; reflexivity. }
  destruct (Unmarshal_padded sp data sp' 0 Hsp Hsp') as [Hi H64].
  split.
  - intros Hne. unfold UnmarshalJSON.
    rewrite (Hpad (or_intror Hne)), Hi, H64.
    destruct (bytes_Equal data NullBytes) eqn:E; [|reflexivity].
    apply bytes_Equal_eq in E. contradiction.
  - intros -> Hne. unfold UnmarshalJSON.
    rewrite (Hpad (or_introl Hne)), Hi. reflexivity.
Qed.

Lemma UnmarshalJSON_padded_witness :
  UnmarshalJSON (bytes " -12  ") (Int8From 5) =
    UnmarshalJSON (bytes "-12") (Int8From 5) /\
  UnmarshalJSON (bytes " null") (Int8From 5) =
    ({| Int8v := 5; Valid := false |}, None).
Proof.
  assert (H1 : spaces (bytes " ")) by (repeat constructor).
  assert (H2 : spaces (bytes "  ")) by (repeat constructor).
  assert (H0 : spaces []) by constructor.
  split.
  - apply (UnmarshalJSON_padded (bytes " ") (bytes "-12") (bytes "  ")
             (Int8From 5) H1 H2).
    discriminate.
  - apply (UnmarshalJSON_padded (bytes " ") NullBytes [] (Int8From 5) H1 H0).
    + reflexivity.
    + discriminate.
Defined.

(** ** Numbers that are no [int64], and text that is no number *)




(** The loop of [ParseUint] reads digits that stay within [maxVal] and goes
    on with what follows them. *)
Lemma ParseUint_loop_app (maxVal : Z) (ds t : list byte) :
  maxVal <= maxUint64 ->
  Forall (fun c => is_digit c = true) ds ->
  forall n, 0 <= n -> dec_value ds n <= maxVal ->
  strconv.ParseUint_loop maxVal (ds ++ t) n =
  strconv.ParseUint_loop maxVal t (dec_value ds n).
Proof.
  intros Hmax. induction 1 as [|c ds Hc Hds IH]; intros n Hn Hle.
  - reflexivity.
  - rewrite dec_value_cons in *. cbn [app strconv.ParseUint_loop]. rewrite Hc.
    pose proof (proj1 (is_digit_range c) Hc) as Hr.
    pose proof (dec_value_ge ds Hds (n * 10 + (byte_val c - 48))) as Hge.
    unfold maxUint64 in *.
    change (2 ^ 64 - 1) with 18446744073709551615 in *.
    change (18446744073709551615 / 10 + 1) with 1844674407370955162.
    destruct (Z.leb_spec 1844674407370955162 n); [lia|].
    unfold uint64. change (2 ^ 64) with 18446744073709551616.
    rewrite Z.mod_small by lia.
    destruct (Z.ltb_spec (n * 10 + (byte_val c - 48)) (n * 10)); [lia|].
    destruct (Z.ltb_spec maxVal (n * 10 + (byte_val c - 48))); [lia|].
    cbn [orb]. apply IH; lia.
Qed.

(** [strconv.ParseInt(s, 10, 8)] on digits within a [uint8] followed by a
    byte that is no digit: a syntax error, with or without a minus sign in
    front. *)
Lemma ParseInt_8_syntax (ds : list byte) (c : byte) (rest : list byte) :
  Forall (fun c => is_digit c = true) ds -> dec_value ds 0 <= 255 ->
  is_digit c = false ->
  (ds <> [] \/ (is_byte c "+" = false /\ is_byte c "-" = false) ->
   strconv.ParseInt (ds ++ c :: rest) 8 =
   (0, Some (NumError "ParseInt" ErrSyntax))) /\
  strconv.ParseInt (bytes "-" ++ ds ++ c :: rest) 8 =
  (0, Some (NumError "ParseInt" ErrSyntax)).
Proof.
  intros Hds Hle Hc.
  assert (Hu : strconv.ParseUint (ds ++ c :: rest) 8 = (0, Some ErrSyntax)).
  { unfold strconv.ParseUint.
    destruct (ds ++ c :: rest) as [|x t] eqn:E;
      [destruct ds; discriminate|]. rewrite <- E.
    change (uint64 (uint64 (2 ^ 8) - 1)) with 255.
    rewrite ParseUint_loop_app; try assumption; try lia.
    - cbn [strconv.ParseUint_loop]. rewrite Hc. reflexivity.
    - unfold maxUint64. change (2 ^ 64 - 1) with 18446744073709551615. lia. }
  split.
  - intros Hor.
    assert (Hsign : exists x t, ds ++ c :: rest = x :: t /\
                     is_byte x "+" = false /\ is_byte x "-" = false).
    { destruct ds as [|d ds'].
      - destruct Hor as [H | H]; [contradiction H; reflexivity|].
        exists c, rest. split; [reflexivity | exact H].
      - exists d, (ds' ++ c :: rest). split; [reflexivity|].
        inversion Hds as [|? ? Hd _]. apply is_digit_cases in Hd. cbn in Hd.
        repeat (destruct Hd as [<- | Hd]; [split; reflexivity|]). contradiction. }
    destruct Hsign as (x & t & E & Hplus & Hminus).
    unfold strconv.ParseInt. rewrite E at 1. cbv beta iota.
    rewrite Hplus, Hminus. cbv beta iota. rewrite Hu. reflexivity.
  - change (bytes "-" ++ ds ++ c :: rest) with (x2d :: ds ++ c :: rest).
    unfold strconv.ParseInt.
    change (is_byte x2d "+") with false. change (is_byte x2d "-") with true.
    cbn iota beta. rewrite Hu. reflexivity.
Qed.

(** X13: [UnmarshalText] does not trim or skip anything: digits within a
    [uint8] (none at all included) followed by any byte that is no digit, a
    space, a point or a letter for instance, are a syntax error of the parse,
    with or without a minus sign in front; the receiver becomes invalid and
    keeps its value. *)
Theorem UnmarshalText_syntax_error (ds : list byte) (c : byte)
    (rest : list byte) (i : Int8) :
  Forall (fun c => is_digit c = true) ds -> dec_value ds 0 <= 255 ->
  is_digit c = false ->
  (ds <> [] \/ (is_byte c "+" = false /\ is_byte c "-" = false) ->
   UnmarshalText (Some (ds ++ c :: rest)) i =
   ({| Int8v := Int8v i; Valid := false |},
    Some (NumError "ParseInt" ErrSyntax))) /\
  UnmarshalText (Some (bytes "-" ++ ds ++ c :: rest)) i =
  ({| Int8v := Int8v i; Valid := false |},
   Some (NumError "ParseInt" ErrSyntax)).
Proof.
  intros Hds Hle Hc.
  destruct (ParseInt_8_syntax ds c rest Hds Hle Hc) as [Hplain Hneg].
  assert (Hlen : forall t : list byte, t <> [] ->
                 (Z.of_nat (List.length t) =? 0) = false).
  { intros t Ht. destruct t; [contradiction|].
    cbn [List.length]. apply Z.eqb_neq. lia. }
  split.
  - intros Hor. unfold UnmarshalText.
    rewrite Hlen by (destruct ds; discriminate).
    rewrite (Hplain Hor). reflexivity.
  - unfold UnmarshalText. rewrite Hlen by discriminate.
    rewrite Hneg. reflexivity.
Qed.

Lemma UnmarshalText_syntax_error_witness :
  UnmarshalText (Some (bytes "12 ")) (Int8From 5) =
    ({| Int8v := 5; Valid := false |}, Some (NumError "ParseInt" ErrSyntax)) /\
  UnmarshalText (Some (bytes " 12")) (Int8From 5) =
    ({| Int8v := 5; Valid := false |}, Some (NumError "ParseInt" ErrSyntax)) /\
  UnmarshalText (Some (bytes "-1.5")) (Int8From 5) =
    ({| Int8v := 5; Valid := false |}, Some (NumError "ParseInt" ErrSyntax)).
Proof.
  assert (D12 : Forall (fun c => is_digit c = true) (bytes "12"))
    by (repeat constructor).
  assert (D1 : Forall (fun c => is_digit c = true) (bytes "1"))
    by (repeat constructor).
  assert (D0 : Forall (fun c => is_digit c = true) []) by constructor.
  assert (V12 : dec_value (bytes "12") 0 <= 255) by (vm_compute; discriminate).
  assert (V1 : dec_value (bytes "1") 0 <= 255) by (vm_compute; discriminate).
  assert (V0 : dec_value [] 0 <= 255) by (vm_compute; discriminate).
  destruct (UnmarshalText_syntax_error (bytes "12") x20 [] (Int8From 5)
              D12 V12 eq_refl) as [Ha _].
  destruct (UnmarshalText_syntax_error [] x20 (bytes "12") (Int8From 5)
              D0 V0 eq_refl) as [Hb _].
  destruct (UnmarshalText_syntax_error (bytes "1") x2e (bytes "5") (Int8From 5)
              D1 V1 eq_refl) as [_ Hc].
  split; [|split].
  - apply Ha. left. discriminate.
  - apply Hb. right. split; reflexivity.
  - exact Hc.
Defined.

(** ** Through the database and back *)

(** X14: with a coercion that stores an integer within the range of an
    [int8] as it is, [Scan] reads back what [Value] wrote, without an error
    and whatever the receiver holds: a valid state comes back as it was, 0
    included, and an invalid state comes back as 0 and invalid. *)
Theorem Scan_Value_roundtrip (ConvertAssign : Z -> Z -> Z * option error)
    (i j : Int8) :
  (forall dest n, in_int8 n -> ConvertAssign dest n = (n, None)) ->
  in_int8 (Int8v i) ->
  Scan ConvertAssign (stored (fst (Value i))) j =
  ((if Valid i then i else {| Int8v := 0; Valid := false |}), None).
Proof.
  intros Hca Hv. unfold Value, Scan.
  destruct i as [v [|]]; cbn [Valid Int8v negb fst stored] in *; [|reflexivity].
  rewrite int64_of_int8 by exact Hv. rewrite (Hca _ v Hv). reflexivity.
Qed.

Lemma Scan_Value_roundtrip_witness :
  Scan sample_ConvertAssign (stored (fst (Value (Int8From 0)))) (NewInt8 5 false) =
    (Int8From 0, None) /\
  Scan sample_ConvertAssign (stored (fst (Value (NewInt8 5 false)))) (Int8From 9) =
    ({| Int8v := 0; Valid := false |}, None).
Proof.
  assert (Hca : forall dest n, in_int8 n -> sample_ConvertAssign dest n = (n, None)).
  { intros dest n [Hlo Hhi]. unfold sample_ConvertAssign.
    destruct (Z.leb_spec MinInt8 n); [|lia].
    destruct (Z.leb_spec n MaxInt8); [reflexivity|lia]. }
  split.
  - apply (Scan_Value_roundtrip sample_ConvertAssign (Int8From 0) (NewInt8 5 false) Hca).
    unfold in_int8, MinInt8, MaxInt8. simpl. lia.
  - apply (Scan_Value_roundtrip sample_ConvertAssign (NewInt8 5 false) (Int8From 9) Hca).
    unfold in_int8, MinInt8, MaxInt8. simpl. lia.
Defined.
